(** * wink-utils: similarity metrics ([src/lib/compute_similarity.js])

    A shallow embedding of the similarity name space and the properties
    its specification states about it.

    Number model.  JavaScript numbers are IEEE doubles.  Array indices,
    string lengths, set sizes and edit counts are integers far below 2^53
    and are modelled exactly, as [nat] or [Z].  The quotients of the set
    metrics and of Jaro-Winkler are modelled by exact rationals [Q]
    (rounding is abstracted away).  The bag-of-words cosine sums, multiplies
    and takes square roots of arbitrary weights, where rounding, overflow
    and the order of the keys all show: it is modelled over the doubles
    themselves, [PrimFloat.float] (module [BowF]).  Module [Bow] is its
    idealisation over the real numbers [R], kept for the one property
    stated on it, which does not depend on rounding. *)

From Stdlib Require Import ZArith QArith Qabs Qminmax Reals Lia Lqa Lra.
From Stdlib Require PrimFloat.
From Stdlib Require Import String Ascii.
From stdpp Require Import base option list gmap strings.

Local Open Scope nat_scope.

(** ** JavaScript strings

    A JavaScript string is a sequence of UTF-16 code units. *)

Abbreviation jsstring := (list N).

(** Literal strings of the examples, one code unit per ASCII character. *)
Definition js (s : string) : jsstring :=
  List.map N_of_ascii (list_ascii_of_string s).

(** [s.charAt(k)]: the code unit at [k]; [None] stands for the empty string
    that [charAt] returns out of range. *)
Definition charAt (s : jsstring) (k : nat) : option N := s !! k.

(** [x === y] on the results of [charAt]. *)
Definition char_seq (x y : option N) : bool := bool_decide (x = y).

(** * The cached Damerau-Levenshtein engine ([createDLFunction]) *)

Module DL.

(** Values a matrix cell can hold: an array hole reads as [undefined];
    arithmetic on [undefined] gives [NaN]; every number ever stored is an
    integer. *)
Inductive jsval := JUndef | JNaN | JInt (z : Z).

#[global] Instance jsval_eq_dec : EqDecision jsval.
Proof. solve_decision. Defined.

(** [v + 1] *)
Definition js_add1 (v : jsval) : jsval :=
  match v with JInt z => JInt (z + 1) | _ => JNaN end.

(** [Math.min(a, b, c)]: [NaN] as soon as one argument is not a number. *)
Definition js_min3 (a b c : jsval) : jsval :=
  match a, b, c with
  | JInt x, JInt y, JInt z => JInt (Z.min (Z.min x y) z)
  | _, _, _ => JNaN
  end.

(** [a < b]: false as soon as one side is not a number. *)
Definition js_lt (a b : jsval) : bool :=
  match a, b with
  | JInt x, JInt y => (x <? y)%Z
  | _, _ => false
  end.

(** [1 - ( d / n )] for an integer [n]; [None] stands for a result that is
    not a finite number. *)
Definition js_one_minus_ratio (d : jsval) (n : nat) : option Q :=
  match d with
  | JInt z =>
      if n =? 0 then None
      else Some (1 - inject_Z z / inject_Z (Z.of_nat n))%Q
  | _ => None
  end.

(** The result object [{ distance, similarity }]. *)
Record result := mkResult { distance : jsval; similarity : option Q }.

(** The matrix: an array of rows, each row an array of cells. *)
Abbreviation row := (list jsval).
Abbreviation matrix := (list (list jsval)).

(** [r[j]] on a row: a hole or an index past the end reads [undefined]. *)
Definition row_get (r : row) (j : nat) : jsval := default JUndef (r !! j).

(** [r[j] = v] on a row: an index past the end extends the array. *)
Definition row_set (r : row) (j : nat) (v : jsval) : row :=
  if j <? length r then <[j := v]> r
  else r ++ replicate (j - length r) JUndef ++ [v].

(** A call either returns or throws the [TypeError] of indexing
    [undefined] (a row that does not exist). *)
Inductive outcome (A : Type) := Ok (a : A) | TypeError.
Arguments Ok {A} a.
Arguments TypeError {A}.

(** Computations over the matrix captured by the closure. *)
Definition M (A : Type) : Type := matrix -> outcome A * matrix.

#[global] Instance M_ret : MRet M := fun A a m => (Ok a, m).
#[global] Instance M_bind : MBind M := fun A B f c m =>
  match c m with
  | (Ok a, m') => f a m'
  | (TypeError, m') => (TypeError, m')
  end.

(** [matrix[i][j]] *)
Definition mread (i j : nat) : M jsval := fun m =>
  match m !! i with
  | Some r => (Ok (row_get r j), m)
  | None => (TypeError, m)
  end.

(** [matrix[i][j] = v] *)
Definition mwrite (i j : nat) (v : jsval) : M unit := fun m =>
  match m !! i with
  | Some r => (Ok tt, <[i := row_set r j v]> m)
  | None => (TypeError, m)
  end.

(** [for ( k = lo; k < lo + n; k += 1 ) body] *)
Fixpoint for_range (lo n : nat) (body : nat -> M unit) : M unit :=
  match n with
  | O => mret tt
  | S n' => body lo ≫= λ _, for_range (S lo) n' body
  end.

(** [createDLFunction( maxLen )]: [max = ( maxLen || 60 ) + 1]; an omitted
    or zero [maxLen] is falsy and gives 60. *)
Definition capacity (maxLen : option nat) : nat :=
  match maxLen with
  | Some (S n) => S n
  | _ => 60
  end.

Definition createDLFunction (maxLen : option nat) : matrix :=
  let max := capacity maxLen + 1 in
  replicate max (replicate max JUndef).

(** The body of the inner loop, for the cell [matrix[i][j]]. *)
Definition cell_step (s1 s2 : jsstring) (i j : nat) : M unit :=
  if char_seq (charAt s2 (i - 1)) (charAt s1 (j - 1)) then
    v ← mread (i - 1) (j - 1);
    mwrite i j v
  else
    sub ← mread (i - 1) (j - 1);
    ins ← mread i (j - 1);
    del ← mread (i - 1) j;
    mwrite i j (js_min3 (js_add1 sub) (js_add1 ins) (js_add1 del));;
    if (1 <? i) && (1 <? j)
       && char_seq (charAt s2 (i - 1)) (charAt s1 (j - 2))
       && char_seq (charAt s2 (i - 2)) (charAt s1 (j - 1))
    then
      t ← mread (i - 2) (j - 2);
      cur ← mread i j;
      if js_lt t cur then
        t' ← mread (i - 2) (j - 2);
        mwrite i j (js_add1 t')
      else mret tt
    else mret tt.

(** The function returned by [createDLFunction], as a computation over the
    matrix of its closure. *)
Definition distance_fn (s1 s2 : jsstring) : M result :=
  let s2Len := length s2 in
  let s1Len := length s1 in
  if s2Len =? 0 then
    mret {| distance := JInt (Z.of_nat s1Len); similarity := Some 0%Q |}
  else if s1Len =? 0 then
    mret {| distance := JInt (Z.of_nat s2Len); similarity := Some 0%Q |}
  else
    for_range 0 (s2Len + 1) (λ i, mwrite i 0 (JInt (Z.of_nat i)));;
    for_range 0 (s1Len + 1) (λ j, mwrite 0 j (JInt (Z.of_nat j)));;
    for_range 1 s2Len (λ i, for_range 1 s1Len (λ j, cell_step s1 s2 i j));;
    d ← mread s2Len s1Len;
    d' ← mread s2Len s1Len;
    mret {| distance := d;
            similarity := js_one_minus_ratio d' (Nat.max s1Len s2Len) |}.

(** An engine after a history of calls: the matrix is the only state that
    survives a call, whether the call returned or threw. *)
Fixpoint engine_after (maxLen : option nat)
    (history : list (jsstring * jsstring)) : matrix :=
  match history with
  | [] => createDLFunction maxLen
  | (s1, s2) :: h => snd (distance_fn s1 s2 (engine_after maxLen h))
  end.

(** The matrix seen from outside a computation: the value a read of
    [matrix[i][j]] yields, and the matrix a write to it leaves. *)
Definition mget (m : matrix) (i j : nat) : jsval :=
  match m !! i with Some r => row_get r j | None => JUndef end.

Definition mset (m : matrix) (i j : nat) (v : jsval) : matrix :=
  match m !! i with Some r => <[i := row_set r j v]> m | None => m end.

(** ** The recurrence the loops compute

    [cell s1 s2 i j] is the value the double loop leaves in
    [matrix[i][j]], written as a function of the two strings alone. *)

Fixpoint cell (s1 s2 : jsstring) (i : nat) {struct i} : nat -> Z :=
  match i with
  | O => fun j => Z.of_nat j
  | S i' =>
      fix cell_row (j : nat) : Z :=
        match j with
        | O => Z.of_nat (S i')
        | S j' =>
            if char_seq (charAt s2 i') (charAt s1 j') then cell s1 s2 i' j'
            else
              let v := Z.min (Z.min (cell s1 s2 i' j' + 1) (cell_row j' + 1))
                             (cell s1 s2 i' (S j') + 1) in
              match i', j' with
              | S i'', S j'' =>
                  if char_seq (charAt s2 i') (charAt s1 j'')
                     && char_seq (charAt s2 i'') (charAt s1 j')
                     && (cell s1 s2 i'' j'' <? v)%Z
                  then cell s1 s2 i'' j'' + 1
                  else v
              | _, _ => v
              end
        end
  end%Z.

(** A matrix cell holds the value of the recurrence. *)
Definition holds_cell (s1 s2 : jsstring) (m : matrix) (i j : nat) : Prop :=
  mget m i j = JInt (cell s1 s2 i j).

(** A computation leaves the number of rows of the matrix alone. *)
Definition keeps_rows {A : Type} (c : M A) : Prop :=
  forall m, length (c m).2 = length m.

(** What a call returns on in-capacity inputs, as a function of the two
    strings alone. *)
Definition dl_value (s1 s2 : jsstring) : result :=
  if length s2 =? 0 then
    {| distance := JInt (Z.of_nat (length s1)); similarity := Some 0%Q |}
  else if length s1 =? 0 then
    {| distance := JInt (Z.of_nat (length s2)); similarity := Some 0%Q |}
  else
    let d := JInt (cell s1 s2 (length s2) (length s1)) in
    {| distance := d;
       similarity := js_one_minus_ratio d (Nat.max (length s1) (length s2)) |}.

(** ** The edits of the documentation

    The comment above [createDLFunction] defines the distance as the
    minimum number of edits, an edit being a deletion, a substitution, an
    insertion or a transposition of two adjacent characters. *)

Inductive edit : jsstring -> jsstring -> Prop :=
  | edit_delete (p q : jsstring) (c : N) : edit (p ++ c :: q) (p ++ q)
  | edit_insert (p q : jsstring) (c : N) : edit (p ++ q) (p ++ c :: q)
  | edit_substitute (p q : jsstring) (c c' : N) :
      edit (p ++ c :: q) (p ++ c' :: q)
  | edit_transpose (p q : jsstring) (c c' : N) :
      edit (p ++ c :: c' :: q) (p ++ c' :: c :: q).

(** [edits n s t]: [s] is transformed into [t] by [n] edits. *)
Inductive edits : nat -> jsstring -> jsstring -> Prop :=
  | edits_O (s : jsstring) : edits 0 s s
  | edits_S (n : nat) (s t u : jsstring) :
      edit s t -> edits n t u -> edits (S n) s u.

End DL.

(** * Set metrics ([similarity.set]) *)

Module SetSim.

(** The result object; [None] stands for the value that is not a finite
    number ([NaN] or an infinity) which a zero denominator produces. *)
Record result := mkResult { distance : option Q; similarity : option Q }.

(** An integer as a number. *)
Definition num (n : nat) : Q := inject_Z (Z.of_nat n).

(** [x / y] *)
Definition js_div (x y : Q) : option Q :=
  if Qeq_bool y 0 then None else Some (x / y)%Q.

(** [1 - x] *)
Definition js_one_minus (x : option Q) : option Q :=
  (λ q, 1 - q)%Q <$> x.

Section Sets.
Context `{Countable K}.

(** [it.forEach( e => { if ( other.has( e ) ) intersectSize += 1; } )] *)
Definition count_common (it other : gset K) : nat :=
  set_fold (λ e n, if decide (e ∈ other) then n + 1 else n) 0 it.

(** The branch both metrics share: iterate the smaller set. *)
Definition intersect_size (sa sb : gset K) : nat :=
  if size sa <? size sb then count_common sa sb else count_common sb sa.

Definition jaccard (sa sb : gset K) : result :=
  let intersectSize := intersect_size sa sb in
  let smlrty :=
    js_div (num intersectSize)
           (num (size sa) + num (size sb) - num intersectSize) in
  {| distance := js_one_minus smlrty; similarity := smlrty |}.

Definition tversky (sa sb : gset K) (alpha beta : option Q) : result :=
  let a := match alpha with None => 0.5%Q | Some x => x end in
  let b := match beta with None => 0.5%Q | Some x => x end in
  let intersectSize := intersect_size sa sb in
  let saMinusSBsize := (num (size sa) - num intersectSize)%Q in
  let sbMinusSAsize := (num (size sb) - num intersectSize)%Q in
  let smlrty :=
    js_div (num intersectSize)
           (num intersectSize + a * saMinusSBsize + b * sbMinusSAsize) in
  {| distance := js_one_minus smlrty; similarity := smlrty |}.
End Sets.

(** The sets of the specification's worked example. *)
Definition example_a : gset nat := {[1; 2; 3]}.
Definition example_b : gset nat := {[2; 3; 4]}.

(** Two numbers agree: both fail to be finite, or both are the same
    rational. *)
Definition same_num (x y : option Q) : Prop :=
  match x, y with
  | Some p, Some q => (p == q)%Q
  | None, None => True
  | _, _ => False
  end.

End SetSim.

(** * Jaro-Winkler ([similarity.string.jaroWinkler]) *)

Module JW.

Record result := mkResult { distance : Q; similarity : Q }.

(** [x < y] *)
Definition js_lt (x y : Q) : bool :=
  match (x ?= y)%Q with Lt => true | _ => false end.

(** The [for] loop with its [break]: [i] is the loop index, [l] the count
    so far, [n] the iterations left before [i] reaches [pLimit]. *)
Fixpoint prefix_loop (s1 s2 : jsstring) (i l n : nat) : nat :=
  match n with
  | O => l
  | S n' =>
      if bool_decide (s1 !! i = s2 !! i)
      then prefix_loop s1 s2 (i + 1) (l + 1) n'
      else l
  end.

Section JaroWinkler.
(** The base Jaro metric of [./jaro.js], which is not part of this file. *)
Variable jaro : jsstring -> jsstring -> result.

Definition jaroWinkler (s1 s2 : jsstring)
    (scalingFactor boostThreshold : option Q) : result :=
  if bool_decide (s1 = s2) then {| distance := 0; similarity := 1 |}
  else
    let sf := match scalingFactor with None => 0.1%Q | Some x => x end in
    let bt := match boostThreshold with None => 0.7%Q | Some x => x end in
    let sf := Qmin (Qabs sf) 0.25 in
    let bt := Qmin (Qabs bt) 1 in
    let ds := jaro s1 s2 in
    if js_lt (similarity ds) bt then ds
    else
      let pLimit := Nat.min (Nat.min (length s1) (length s2)) 4 in
      let l := prefix_loop s1 s2 0 0 pLimit in
      let smlrty :=
        (similarity ds
         + inject_Z (Z.of_nat l) * sf * (1 - similarity ds))%Q in
      {| distance := (1 - smlrty)%Q; similarity := smlrty |}.
End JaroWinkler.

(** A base metric to run the examples with: the classical Jaro value of
    the pair "martha"/"marhta", 17/18, and similarity 0 for any other
    pair. *)
Definition sample_jaro (s1 s2 : jsstring) : result :=
  if bool_decide (s1 = js "martha" /\ s2 = js "marhta")
  then {| distance := 1 # 18; similarity := 17 # 18 |}
  else {| distance := 1; similarity := 0 |}.

(** The words of the specification, for comparison with the code. *)

(** The count of leading positions at which the two strings agree. *)
Fixpoint common_prefix_length (s1 s2 : jsstring) : nat :=
  match s1, s2 with
  | c1 :: t1, c2 :: t2 =>
      if bool_decide (c1 = c2) then S (common_prefix_length t1 t2) else 0
  | _, _ => 0
  end.

(** That count, capped at 4 and at the length of the shorter string. *)
Definition capped_prefix (s1 s2 : jsstring) : nat :=
  Nat.min (common_prefix_length s1 s2)
          (Nat.min 4 (Nat.min (length s1) (length s2))).

(** A parameter after defaulting, taking the absolute value if negative,
    and capping. *)
Definition normalized (dflt cap : Q) (p : option Q) : Q :=
  let x := match p with None => dflt | Some x => x end in
  let x := if Qlt_le_dec x 0 then (- x)%Q else x in
  if Qlt_le_dec cap x then cap else x.

End JW.

(** * Bag-of-words cosine ([similarity.bow.cosine]) over the reals

    The idealisation of [cosine] in which the bags are finite maps and the
    arithmetic is that of the real numbers.  It says nothing about
    rounding, overflow or the order of the keys; the model over the doubles
    is [BowF] below. *)

Module Bow.

Record result := mkResult { distance : R; similarity : R }.

(** [x || 0] on the result of a property read. *)
Definition js_or0 (o : option R) : R :=
  match o with
  | Some x => if Req_dec_T x 0 then 0%R else x
  | None => 0%R
  end.

(** [( sa2 && sb2 ) ? t : e]: a number is falsy when it is zero. *)
Definition js_both_truthy (x y : R) : bool :=
  if Req_dec_T x 0 then false else if Req_dec_T y 0 then false else true.

(** The first two loops: fill [ab] and [ba]. *)
Definition fill_from_a (a : gmap string R) : gmap string R * gmap string R :=
  map_fold (λ w v st, (<[w := v]> st.1, <[w := 0%R]> st.2)) (∅, ∅) a.

Definition fill_from_b (b : gmap string R)
    (st : gmap string R * gmap string R) : gmap string R * gmap string R :=
  map_fold (λ w v st, (<[w := js_or0 (st.1 !! w)]> st.1, <[w := v]> st.2))
           st b.

(** The third loop: the sums [sa2], [sb2] and [saxb] in one pass over
    [ab]. *)
Definition sums (ab ba : gmap string R) : R * R * R :=
  map_fold (λ w va acc,
              let vb := default 0%R (ba !! w) in
              (acc.1.1 + va * va, acc.1.2 + vb * vb, acc.2 + va * vb)%R)
           (0, 0, 0)%R ab.

Definition cosine (a b : gmap string R) : result :=
  let st := fill_from_b b (fill_from_a a) in
  let acc := sums st.1 st.2 in
  let sa2 := acc.1.1 in
  let sb2 := acc.1.2 in
  let saxb := acc.2 in
  let smlrty :=
    if js_both_truthy sa2 sb2 then (saxb / (sqrt sa2 * sqrt sb2))%R
    else 0%R in
  {| distance := (1 - smlrty)%R; similarity := smlrty |}.

(** The words of the specification: a sparse vector reads 0 at an absent
    key. *)
Definition weight (a : gmap string R) (w : string) : R :=
  default 0%R (a !! w).





End Bow.

(** * Bag-of-words cosine ([similarity.bow.cosine]) over the doubles *)

Module BowF.
Import PrimFloat.

(** The result object; a number is a double. *)
Record result := mkResult { distance : float; similarity : float }.

(** ToBoolean on a number: [+0], [-0] and [NaN] are falsy. *)
Definition truthy (x : float) : bool := negb (is_zero x || is_nan x).

(** An object used as a map from words to numbers: its properties in the
    order [for ( w in o )] enumerates them. *)
Abbreviation obj := (list (string * float)).

(** The value of a decimal digit. *)
Definition digit (c : ascii) : option N :=
  let n := N_of_ascii c in
  if ((48 <=? n) && (n <=? 57))%N then Some (n - 48)%N else None.

Fixpoint digits_value (s : string) (acc : N) : option N :=
  match s with
  | EmptyString => Some acc
  | String c s' =>
      match digit c with
      | Some d => digits_value s' (10 * acc + d)%N
      | None => None
      end
  end.

(** A property key that is an array index: the canonical decimal form of
    an integer between 0 and 2^32 - 2.  Such keys are enumerated first, in
    ascending order; the other keys follow in the order of their
    creation. *)
Definition array_index (k : string) : option N :=
  match k with
  | EmptyString => None
  | String c rest =>
      if Ascii.eqb c "0" then
        match rest with EmptyString => Some 0%N | _ => None end
      else
        match digits_value k 0 with
        | Some n => if (n <=? 4294967294)%N then Some n else None
        | None => None
        end
  end.

(** [o[k]]: [None] stands for [undefined]. *)
Fixpoint obj_get (o : obj) (k : string) : option float :=
  match o with
  | [] => None
  | (k', v) :: o' => if bool_decide (k' = k) then Some v else obj_get o' k
  end.

(** [o[k] = v] for a property that exists: its place does not change. *)
Fixpoint obj_update (o : obj) (k : string) (v : float) : obj :=
  match o with
  | [] => []
  | (k', v') :: o' =>
      if bool_decide (k' = k) then (k', v) :: o'
      else (k', v') :: obj_update o' k v
  end.

(** [o[k] = v] for a new array index [n]: after the smaller array indices,
    before everything else. *)
Fixpoint obj_insert_index (o : obj) (n : N) (k : string) (v : float) : obj :=
  match o with
  | [] => [(k, v)]
  | (k', v') :: o' =>
      match array_index k' with
      | Some n' =>
          if (n' <? n)%N then (k', v') :: obj_insert_index o' n k v
          else (k, v) :: (k', v') :: o'
      | None => (k, v) :: (k', v') :: o'
      end
  end.

(** [o[k] = v] *)
Definition obj_set (o : obj) (k : string) (v : float) : obj :=
  match obj_get o k with
  | Some _ => obj_update o k v
  | None =>
      match array_index k with
      | Some n => obj_insert_index o n k v
      | None => o ++ [(k, v)]
      end
  end.

(** [x || 0] on the result of a property read. *)
Definition js_or0 (x : option float) : float :=
  match x with
  | Some v => if truthy v then v else 0%float
  | None => 0%float
  end.

(** A property read used as a number: [undefined] becomes [NaN]. *)
Definition to_number (x : option float) : float :=
  match x with Some v => v | None => nan end.

(** The first loop: [ab[ w ] = a[ w ]; ba[ w ] = 0;] for every property
    [w] of [a], whose value is [a[ w ]]. *)
Definition fill_from_a (a : obj) : obj * obj :=
  fold_left (λ st e, (obj_set st.1 e.1 e.2, obj_set st.2 e.1 0%float))
            a ([], []).

(** The second loop: [ba[ w ] = b[ w ]; ab[ w ] = ab[ w ] || 0;]. *)
Definition fill_from_b (b : obj) (st : obj * obj) : obj * obj :=
  fold_left (λ st e,
               let ba := obj_set st.2 e.1 e.2 in
               (obj_set st.1 e.1 (js_or0 (obj_get st.1 e.1)), ba))
            b st.

(** One iteration of the third loop on the accumulators
    [(sa2, sb2, saxb)]. *)
Definition accumulate (acc : float * float * float) (va vb : float)
    : float * float * float :=
  (acc.1.1 + va * va, acc.1.2 + vb * vb, acc.2 + va * vb)%float.

(** The third loop, over the properties of [ab]. *)
Definition sums (ab ba : obj) : float * float * float :=
  fold_left (λ acc e, accumulate acc e.2 (to_number (obj_get ba e.1)))
            ab (0, 0, 0)%float.

Definition cosine (a b : obj) : result :=
  let st := fill_from_b b (fill_from_a a) in
  let acc := sums st.1 st.2 in
  let sa2 := acc.1.1 in
  let sb2 := acc.1.2 in
  let saxb := acc.2 in
  let smlrty :=
    if truthy sa2 && truthy sb2 then (saxb / (sqrt sa2 * sqrt sb2))%float
    else 0%float in
  {| distance := (1 - smlrty)%float; similarity := smlrty |}.

(** The words of the specification: one pass over the union of the keys,
    an absent key reading as weight 0. *)

Definition keys (o : obj) : list string := o.*1.

Definition weight (a : obj) (k : string) : float :=
  match obj_get a k with Some v => v | None => 0%float end.

(** The place of a new array index among the keys. *)
Fixpoint keys_insert_index (ks : list string) (n : N) (k : string)
    : list string :=
  match ks with
  | [] => [k]
  | k' :: ks' =>
      match array_index k' with
      | Some n' =>
          if (n' <? n)%N then k' :: keys_insert_index ks' n k
          else k :: k' :: ks'
      | None => k :: k' :: ks'
      end
  end.

(** The keys of an object after a key is added to it. *)
Definition keys_add (ks : list string) (k : string) : list string :=
  if bool_decide (k ∈ ks) then ks
  else
    match array_index k with
    | Some n => keys_insert_index ks n k
    | None => ks ++ [k]
    end.

(** The union of the keys of [a] and [b], in the order JavaScript
    enumerates an object to which the keys of [a], then those of [b], were
    added. *)
Definition union_keys (a b : obj) : list string :=
  fold_left keys_add (keys a ++ keys b) [].

(** The sum of squares of [a], the sum of squares of [b] and the dot
    product, accumulated in doubles in one pass over that union. *)
Definition union_sums (a b : obj) : float * float * float :=
  fold_left (λ acc k, accumulate acc (weight a k) (weight b k))
            (union_keys a b) (0, 0, 0)%float.

(** The object whose keys are [ks] and whose values are given by [f]. *)
Definition tabulate (f : string -> float) (ks : list string) : obj :=
  map (λ k, (k, f k)) ks.

(** No weight of the bag is [NaN] or [-0]: every weight is truthy or is
    [+0], so that [x || 0] leaves it alone. *)
Definition plain (a : obj) : Prop :=
  forall k v, obj_get a k = Some v -> truthy v = true \/ v = 0%float.

(** The double the literal [1e200] denotes. *)
Definition w1e200 : float := 0x1.4e718d7d7625ap+664%float.

(** Bags for the examples. *)
Definition huge : obj := [("a"%string, w1e200)].
Definition example_a : obj :=
  [("the"%string, 1%float); ("cat"%string, 1%float)].
Definition example_b : obj :=
  [("the"%string, 1%float); ("dog"%string, 1%float)].
Definition zero_bag : obj :=
  [("the"%string, 0%float); ("cat"%string, 0%float)].

End BowF.

(** * Exact match ([similarity.string.exact]) and the Jaro wrapper *)

Module Exact.

(** [similarity.string.exact]: the result object is the one of the string
    name space. *)
Definition exact (s1 s2 : jsstring) : JW.result :=
  if bool_decide (s1 = s2) then {| JW.distance := 0; JW.similarity := 1 |}
  else {| JW.distance := 1; JW.similarity := 0 |}.

(** [similarity.string.jaro]: a call of the base metric of [./jaro.js]. *)
Definition jaro_wrapper (jaro : jsstring -> jsstring -> JW.result)
    (s1 s2 : jsstring) : JW.result :=
  jaro s1 s2.

End Exact.

(** * Invariants of the engine's matrix *)

Module DLInv.
Import DL.

(** The shape [createDLFunction] gives the matrix: [n] rows of at least
    [n] cells each. *)
Definition well_formed (n : nat) (m : matrix) : Prop :=
  length m = n /\ Forall (λ r : row, n <= length r) m.

(** A computation preserves a property of the matrix, whether it returns
    or throws. *)
Definition preserves {A : Type} (P : matrix -> Prop) (c : M A) : Prop :=
  forall m, P m -> P (c m).2.

End DLInv.

(** * Facts about the Damerau-Levenshtein engine *)

Section DLFacts.
Import DL.

(** ** Rows and the matrix *)

Lemma row_get_set_eq (r : row) (j : nat) (v : jsval) :
  row_get (row_set r j v) j = v.
Proof.
  unfold row_get, row_set.
  destruct (j <? length r) eqn:E.
  - apply Nat.ltb_lt in E. by rewrite list_lookup_insert_eq.
  - apply Nat.ltb_ge in E.
    rewrite lookup_app_r by lia.
    rewrite lookup_app_r by (rewrite length_replicate; lia).
    rewrite length_replicate.
    by replace (j - length r - (j - length r)) with 0 by lia.
Qed.

Lemma row_get_set_ne (r : row) (j j' : nat) (v : jsval) :
  j ≠ j' -> row_get (row_set r j v) j' = row_get r j'.
Proof.
  intros Hne. unfold row_get, row_set.
  destruct (j <? length r) eqn:E.
  - by rewrite list_lookup_insert_ne.
  - apply Nat.ltb_ge in E.
    destruct (decide (j' < length r)) as [Hlt|Hge].
    + by rewrite lookup_app_l.
    + rewrite lookup_app_r by lia.
      rewrite (lookup_ge_None_2 r j') by lia.
      destruct (decide (j' < j)) as [Hlt'|Hge'].
      * rewrite lookup_app_l by (rewrite length_replicate; lia).
        rewrite lookup_replicate_2; [done | lia].
      * rewrite lookup_ge_None_2; [done |].
        rewrite length_app, length_replicate. simpl. lia.
Qed.

Lemma length_mset (m : matrix) (i j : nat) (v : jsval) :
  length (mset m i j v) = length m.
Proof. unfold mset. destruct (m !! i); [apply length_insert | done]. Qed.

Lemma mget_mset_eq (m : matrix) (i j : nat) (v : jsval) :
  i < length m -> mget (mset m i j v) i j = v.
Proof.
  intros Hi. unfold mget, mset.
  destruct (lookup_lt_is_Some_2 m i Hi) as [r Hr]. rewrite Hr.
  rewrite list_lookup_insert_eq by done. apply row_get_set_eq.
Qed.

Lemma mget_mset_ne (m : matrix) (i j i' j' : nat) (v : jsval) :
  (i, j) ≠ (i', j') -> mget (mset m i j v) i' j' = mget m i' j'.
Proof.
  intros Hne. unfold mget, mset.
  destruct (m !! i) as [r|] eqn:Hr; [| done].
  destruct (decide (i = i')) as [<-|Hi].
  - rewrite list_lookup_insert_eq by (eapply lookup_lt_Some; eauto).
    rewrite Hr. apply row_get_set_ne. congruence.
  - by rewrite list_lookup_insert_ne.
Qed.

Lemma mread_ok (m : matrix) (i j : nat) :
  i < length m -> mread i j m = (Ok (mget m i j), m).
Proof.
  intros Hi. unfold mread, mget.
  by destruct (lookup_lt_is_Some_2 m i Hi) as [r ->].
Qed.

Lemma mwrite_ok (m : matrix) (i j : nat) (v : jsval) :
  i < length m -> mwrite i j v m = (Ok tt, mset m i j v).
Proof.
  intros Hi. unfold mwrite, mset.
  by destruct (lookup_lt_is_Some_2 m i Hi) as [r ->].
Qed.

(** ** The number of rows never changes *)

Lemma keeps_rows_ret {A : Type} (a : A) : keeps_rows (mret a).
Proof. by intros m. Qed.

Lemma keeps_rows_bind {A B : Type} (c : M A) (f : A -> M B) :
  keeps_rows c -> (forall a, keeps_rows (f a)) -> keeps_rows (c ≫= f).
Proof.
  intros Hc Hf m. unfold mbind, M_bind. specialize (Hc m).
  destruct (c m) as [[a|] m']; simpl in *; [| done].
  by rewrite Hf.
Qed.

Lemma keeps_rows_mread (i j : nat) : keeps_rows (mread i j).
Proof. intros m. unfold mread. by destruct (m !! i). Qed.

Lemma keeps_rows_mwrite (i j : nat) (v : jsval) : keeps_rows (mwrite i j v).
Proof.
  intros m. unfold mwrite.
  destruct (m !! i); [apply length_insert | done].
Qed.

Lemma keeps_rows_for (body : nat -> M unit) (lo n : nat) :
  (forall k, keeps_rows (body k)) -> keeps_rows (for_range lo n body).
Proof.
  intros Hb. revert lo. induction n as [|n IH]; intros lo; simpl.
  - apply keeps_rows_ret.
  - apply keeps_rows_bind; auto.
Qed.

Create HintDb rows.
#[local] Hint Resolve keeps_rows_ret keeps_rows_mread keeps_rows_mwrite
  keeps_rows_for : rows.

Lemma keeps_rows_cell_step (s1 s2 : jsstring) (i j : nat) :
  keeps_rows (cell_step s1 s2 i j).
Proof.
  unfold cell_step.
  repeat first
    [ apply keeps_rows_bind; [| intros ?]
    | match goal with |- keeps_rows (if ?b then _ else _) => destruct b end
    | solve [auto with rows] ].
Qed.

Lemma keeps_rows_distance_fn (s1 s2 : jsstring) :
  keeps_rows (distance_fn s1 s2).
Proof.
  unfold distance_fn.
  repeat first
    [ apply keeps_rows_bind; [| intros ?]
    | match goal with |- keeps_rows (if ?b then _ else _) => destruct b end
    | apply keeps_rows_for; intros ?
    | apply keeps_rows_cell_step
    | solve [auto with rows] ].
Qed.

Lemma length_createDLFunction (maxLen : option nat) :
  length (createDLFunction maxLen) = capacity maxLen + 1.
Proof. unfold createDLFunction. apply length_replicate. Qed.

Lemma length_engine_after (maxLen : option nat)
    (history : list (jsstring * jsstring)) :
  length (engine_after maxLen history) = capacity maxLen + 1.
Proof.
  induction history as [|[s1 s2] h IH]; simpl.
  - apply length_createDLFunction.
  - by rewrite keeps_rows_distance_fn.
Qed.

(** ** Running a computation *)

Lemma bind_ok {A B : Type} (c : M A) (f : A -> M B) (m m' : matrix) (a : A) :
  c m = (Ok a, m') -> (c ≫= f) m = f a m'.
Proof. intros Hc. unfold mbind, M_bind. by rewrite Hc. Qed.

(** The loop rule: an invariant that every iteration preserves holds when
    the loop is left, and the loop does not throw. *)
Lemma for_range_inv (Inv : nat -> matrix -> Prop) (body : nat -> M unit)
    (n lo : nat) (m : matrix) :
  Inv lo m ->
  (forall k mk, lo <= k < lo + n -> Inv k mk ->
     exists mk', body k mk = (Ok tt, mk') /\ Inv (S k) mk') ->
  exists m', for_range lo n body m = (Ok tt, m') /\ Inv (lo + n) m'.
Proof.
  revert lo m. induction n as [|n IH]; intros lo m H0 Hstep; simpl.
  - exists m. by rewrite Nat.add_0_r.
  - destruct (Hstep lo m) as (m1 & Hb & H1); [lia | done |].
    destruct (IH (S lo) m1) as (m2 & Hl & H2); [done | |].
    + intros k mk Hk. apply Hstep. lia.
    + exists m2. split.
      * by rewrite (bind_ok _ _ _ _ _ Hb).
      * by replace (lo + S n) with (S lo + n) by lia.
Qed.

(** ** The recurrence, unfolded *)

Section Recurrence.
Variables s1 s2 : jsstring.

Lemma cell_row0 (j : nat) : cell s1 s2 0 j = Z.of_nat j.
Proof. reflexivity. Qed.

Lemma cell_col0 (i : nat) : cell s1 s2 i 0 = Z.of_nat i.
Proof. by destruct i. Qed.

Lemma cell_SS (i j : nat) :
  cell s1 s2 (S i) (S j) =
  if char_seq (charAt s2 i) (charAt s1 j) then cell s1 s2 i j
  else
    let v := Z.min (Z.min (cell s1 s2 i j + 1) (cell s1 s2 (S i) j + 1))
                   (cell s1 s2 i (S j) + 1) in
    if (1 <? S i) && (1 <? S j)
       && char_seq (charAt s2 i) (charAt s1 (j - 1))
       && char_seq (charAt s2 (i - 1)) (charAt s1 j)
       && (cell s1 s2 (i - 1) (j - 1) <? v)%Z
    then (cell s1 s2 (i - 1) (j - 1) + 1)%Z
    else v.
Proof.
  destruct i as [|i], j as [|j]; try reflexivity.
  simpl Nat.sub. rewrite !Nat.sub_0_r. reflexivity.
Qed.

(** A cell that holds the value of the recurrence. *)
Local Abbreviation good := (holds_cell s1 s2).

(** One iteration of the inner loop reads only cells that hold the
    recurrence and leaves the recurrence in its own cell. *)
Lemma cell_step_spec (m : matrix) (i j : nat) :
  1 <= i -> 1 <= j -> i < length m ->
  (forall i' j', i' <= i -> j' <= j -> (i', j') ≠ (i, j) -> good m i' j') ->
  exists m',
    cell_step s1 s2 i j m = (Ok tt, m') /\
    length m' = length m /\
    good m' i j /\
    (forall i' j', (i', j') ≠ (i, j) -> mget m' i' j' = mget m i' j').
Proof.
  intros Hi Hj Hlen Hgood.
  destruct i as [|i]; [lia |]. destruct j as [|j]; [lia |].
  assert (Hd : good m i j)
    by (apply Hgood; [lia | lia | intros Heq; injection Heq; lia]).
  assert (Hl : good m (S i) j)
    by (apply Hgood; [lia | lia | intros Heq; injection Heq; lia]).
  assert (Hu : good m i (S j))
    by (apply Hgood; [lia | lia | intros Heq; injection Heq; lia]).
  assert (Ht : good m (i - 1) (j - 1))
    by (apply Hgood; [lia | lia | intros Heq; injection Heq; lia]).
  unfold holds_cell in *. unfold cell_step.
  replace (S i - 1) with i by lia. replace (S j - 1) with j by lia.
  replace (S i - 2) with (i - 1) by lia.
  replace (S j - 2) with (j - 1) by lia.
  rewrite cell_SS.
  destruct (char_seq (charAt s2 i) (charAt s1 j)).
  - rewrite (bind_ok _ _ _ _ _ (mread_ok m i j ltac:(lia))).
    rewrite mwrite_ok by lia. rewrite Hd.
    eexists. split; [reflexivity |].
    split; [apply length_mset |].
    split; [by apply mget_mset_eq |].
    intros i' j' Hne. by apply mget_mset_ne.
  - rewrite (bind_ok _ _ _ _ _ (mread_ok m i j ltac:(lia))).
    rewrite (bind_ok _ _ _ _ _ (mread_ok m (S i) j ltac:(lia))).
    rewrite (bind_ok _ _ _ _ _ (mread_ok m i (S j) ltac:(lia))).
    rewrite (bind_ok _ _ _ _ _ (mwrite_ok m (S i) (S j) _ ltac:(lia))).
    rewrite Hd, Hl, Hu. cbn [js_add1 js_min3].
    set (v := Z.min _ _).
    set (m1 := mset m (S i) (S j) (JInt v)).
    assert (Hlen1 : length m1 = length m) by apply length_mset.
    cbn zeta.
    destruct ((1 <? S i) && (1 <? S j)
              && char_seq (charAt s2 i) (charAt s1 (j - 1))
              && char_seq (charAt s2 (i - 1)) (charAt s1 j)) eqn:Hsw.
    + assert (Hij : 1 <= i /\ 1 <= j).
      { apply andb_prop in Hsw as [Hsw _]. apply andb_prop in Hsw as [Hsw _].
        apply andb_prop in Hsw as [H1 H2].
        apply Nat.ltb_lt in H1, H2. lia. }
      assert (Ht1 : mget m1 (i - 1) (j - 1)
                    = JInt (cell s1 s2 (i - 1) (j - 1))).
      { unfold m1. rewrite mget_mset_ne by (intros Heq; injection Heq; lia).
        done. }
      assert (Hcur : mget m1 (S i) (S j) = JInt v).
      { unfold m1. apply mget_mset_eq. lia. }
      rewrite (bind_ok _ _ _ _ _ (mread_ok m1 (i - 1) (j - 1) ltac:(lia))).
      rewrite (bind_ok _ _ _ _ _ (mread_ok m1 (S i) (S j) ltac:(lia))).
      rewrite Ht1, Hcur.
      cbn [js_lt andb].
      destruct (cell s1 s2 (i - 1) (j - 1) <? v)%Z.
      * rewrite (bind_ok _ _ _ _ _
                   (mread_ok m1 (i - 1) (j - 1) ltac:(lia))).
        rewrite mwrite_ok by lia.
        rewrite Ht1. cbn [js_add1].
        eexists. split; [reflexivity |].
        split; [by rewrite length_mset |].
        split; [apply mget_mset_eq; lia |].
        intros i' j' Hne. rewrite mget_mset_ne by done.
        by apply mget_mset_ne.
      * eexists. split; [reflexivity |].
        split; [done |].
        split; [done |].
        intros i' j' Hne. by apply mget_mset_ne.
    + cbn [andb].
      eexists. split; [reflexivity |].
      split; [done |].
      split; [by apply mget_mset_eq |].
      intros i' j' Hne. by apply mget_mset_ne.
Qed.

(** The two initialisation loops. *)
Lemma init_rows_spec (m : matrix) :
  length s2 < length m ->
  exists m',
    for_range 0 (length s2 + 1) (λ i, mwrite i 0 (JInt (Z.of_nat i))) m
      = (Ok tt, m') /\
    length m' = length m /\
    (forall i, i <= length s2 -> mget m' i 0 = JInt (Z.of_nat i)).
Proof.
  intros Hlen.
  destruct (for_range_inv
    (λ k mk, length mk = length m /\
             forall i, i < k -> mget mk i 0 = JInt (Z.of_nat i))
    (λ i, mwrite i 0 (JInt (Z.of_nat i))) (length s2 + 1) 0 m)
    as (m' & Hrun & Hl & Hc).
  - split; [done | intros i Hi; lia].
  - intros k mk Hk [Hl Hc]. rewrite mwrite_ok by lia.
    eexists. split; [reflexivity |]. split; [by rewrite length_mset |].
    intros i Hi. destruct (decide (i = k)) as [->|Hne].
    + apply mget_mset_eq. lia.
    + rewrite mget_mset_ne by congruence. apply Hc. lia.
  - exists m'. split; [done |]. split; [done |].
    intros i Hi. apply Hc. lia.
Qed.

Lemma init_cols_spec (m : matrix) :
  0 < length m ->
  (forall i, i <= length s2 -> mget m i 0 = JInt (Z.of_nat i)) ->
  exists m',
    for_range 0 (length s1 + 1) (λ j, mwrite 0 j (JInt (Z.of_nat j))) m
      = (Ok tt, m') /\
    length m' = length m /\
    (forall i, i <= length s2 -> mget m' i 0 = JInt (Z.of_nat i)) /\
    (forall j, j <= length s1 -> mget m' 0 j = JInt (Z.of_nat j)).
Proof.
  intros Hlen Hcol.
  destruct (for_range_inv
    (λ k mk, length mk = length m /\
             (forall i, i <= length s2 -> mget mk i 0 = JInt (Z.of_nat i)) /\
             forall j, j < k -> mget mk 0 j = JInt (Z.of_nat j))
    (λ j, mwrite 0 j (JInt (Z.of_nat j))) (length s1 + 1) 0 m)
    as (m' & Hrun & Hl & Hc & Hr).
  - split; [done |]. split; [done | intros j Hj; lia].
  - intros k mk Hk (Hl & Hc & Hr). rewrite mwrite_ok by lia.
    eexists. split; [reflexivity |]. split; [by rewrite length_mset |].
    split.
    + intros i Hi. destruct (decide ((0, k) = (i, 0))) as [Heq|Hne].
      * injection Heq as <- ->. apply mget_mset_eq. lia.
      * rewrite mget_mset_ne by done. by apply Hc.
    + intros j Hj. destruct (decide (j = k)) as [->|Hne].
      * apply mget_mset_eq. lia.
      * rewrite mget_mset_ne by congruence. apply Hr. lia.
  - exists m'. split; [done |]. split; [done |]. split; [done |].
    intros j Hj. apply Hr. lia.
Qed.

(** One pass of the inner loop fills row [i]. *)
Lemma fill_row_spec (m : matrix) (i : nat) :
  1 <= i <= length s2 -> length s2 < length m ->
  (forall i' j', i' <= length s2 -> j' <= length s1 ->
     i' < i \/ j' = 0 -> good m i' j') ->
  exists m',
    for_range 1 (length s1) (λ j, cell_step s1 s2 i j) m = (Ok tt, m') /\
    length m' = length m /\
    (forall i' j', i' <= length s2 -> j' <= length s1 ->
       i' < S i \/ j' = 0 -> good m' i' j').
Proof.
  intros Hi Hlen Hgood.
  destruct (for_range_inv
    (λ k mk, length mk = length m /\
             forall i' j', i' <= length s2 -> j' <= length s1 ->
               i' < i \/ j' = 0 \/ (i' = i /\ j' < k) -> good mk i' j')
    (λ j, cell_step s1 s2 i j) (length s1) 1 m)
    as (m' & Hrun & Hl & Hg).
  - split; [done |]. intros i' j' Hi' Hj' Hc. apply Hgood; [done | done |].
    lia.
  - intros k mk Hk [Hl Hg].
    destruct (cell_step_spec mk i k) as (mk' & Hrun & Hl' & Hnew & Hframe);
      [lia | lia | lia | |].
    + intros i' j' Hi' Hj' Hne. apply Hg; [lia | lia |].
      destruct (decide (i' = i)) as [->|]; [| lia].
      destruct (decide (j' = k)) as [->|]; [done | lia].
    + exists mk'. split; [done |]. split; [congruence |].
      intros i' j' Hi' Hj' Hc.
      destruct (decide ((i', j') = (i, k))) as [Heq|Hne].
      * by injection Heq as -> ->.
      * unfold holds_cell. rewrite Hframe by done. apply Hg; [done | done |].
        destruct (decide (i' = i)) as [->|]; [| lia].
        destruct (decide (j' = k)) as [->|]; [done | lia].
  - exists m'. split; [done |]. split; [done |].
    intros i' j' Hi' Hj' Hc. apply Hg; [done | done |]. lia.
Qed.

(** The double loop fills every cell the two strings span. *)
Lemma fill_spec (m : matrix) :
  length s2 < length m ->
  (forall i, i <= length s2 -> mget m i 0 = JInt (Z.of_nat i)) ->
  (forall j, j <= length s1 -> mget m 0 j = JInt (Z.of_nat j)) ->
  exists m',
    for_range 1 (length s2)
      (λ i, for_range 1 (length s1) (λ j, cell_step s1 s2 i j)) m
      = (Ok tt, m') /\
    length m' = length m /\
    good m' (length s2) (length s1).
Proof.
  intros Hlen Hcol Hrow.
  destruct (for_range_inv
    (λ k mk, length mk = length m /\
             forall i' j', i' <= length s2 -> j' <= length s1 ->
               i' < k \/ j' = 0 -> good mk i' j')
    (λ i, for_range 1 (length s1) (λ j, cell_step s1 s2 i j))
    (length s2) 1 m)
    as (m' & Hrun & Hl & Hg).
  - split; [done |]. intros i' j' Hi' Hj' Hc. unfold holds_cell.
    destruct (decide (j' = 0)) as [->|Hj0].
    + rewrite cell_col0. by apply Hcol.
    + assert (i' = 0) as -> by lia. rewrite cell_row0. by apply Hrow.
  - intros k mk Hk [Hl Hg].
    destruct (fill_row_spec mk k) as (mk' & Hrun & Hl' & Hg');
      [lia | lia | done |].
    exists mk'. split; [done |]. split; [congruence | done].
  - exists m'. split; [done |]. split; [done |].
    apply Hg; [done | done | lia].
Qed.

(** A call on any matrix with enough rows returns, and what it returns
    is [dl_value s1 s2]. *)
Lemma distance_fn_spec (m : matrix) :
  length s2 < length m ->
  exists m',
    distance_fn s1 s2 m = (Ok (dl_value s1 s2), m') /\
    length m' = length m.
Proof.
  intros Hlen. unfold distance_fn, dl_value.
  destruct (length s2 =? 0) eqn:E2; [by exists m |].
  destruct (length s1 =? 0) eqn:E1; [by exists m |].
  destruct (init_rows_spec m Hlen) as (m1 & Hrun1 & Hl1 & Hc1).
  destruct (init_cols_spec m1) as (m2 & Hrun2 & Hl2 & Hc2 & Hr2);
    [lia | done |].
  destruct (fill_spec m2) as (m3 & Hrun3 & Hl3 & Hg);
    [lia | done | done |].
  rewrite (bind_ok _ _ _ _ _ Hrun1).
  rewrite (bind_ok _ _ _ _ _ Hrun2).
  rewrite (bind_ok _ _ _ _ _ Hrun3).
  rewrite (bind_ok _ _ _ _ _
             (mread_ok m3 (length s2) (length s1) ltac:(lia))).
  rewrite (bind_ok _ _ _ _ _
             (mread_ok m3 (length s2) (length s1) ltac:(lia))).
  rewrite Hg. exists m3. split; [done | congruence].
Qed.

(** ** Bounds on the recurrence *)

Lemma cell_bounds (i j : nat) :
  (0 <= cell s1 s2 i j <= Z.of_nat (Nat.max i j))%Z.
Proof.
  revert j. induction i as [i IHi] using lt_wf_ind. intros j.
  destruct i as [|i]; [rewrite cell_row0; lia |].
  induction j as [|j IHj]; [rewrite cell_col0; lia |].
  rewrite cell_SS.
  pose proof (IHi i ltac:(lia) j) as Hd.
  pose proof (IHi i ltac:(lia) (S j)) as Hu.
  pose proof (IHi (i - 1) ltac:(lia) (j - 1)) as Ht.
  destruct (char_seq (charAt s2 i) (charAt s1 j)); [lia |].
  cbn zeta.
  set (v := Z.min _ _) in *.
  assert (Hv : (1 <= v <= Z.of_nat (Nat.max (S i) (S j)))%Z)
    by (unfold v; lia).
  destruct (_ && (cell s1 s2 (i - 1) (j - 1) <? v)%Z) eqn:Hsw; [| lia].
  apply andb_prop in Hsw as [_ Hlt]. apply Z.ltb_lt in Hlt. lia.
Qed.

End Recurrence.

(** ** An adjacent transposition costs one edit *)

Lemma lookup_app_plus (p l : jsstring) (k : nat) :
  (p ++ l) !! (length p + k) = l !! k.
Proof.
  rewrite lookup_app_r by lia. f_equal. lia.
Qed.

Lemma cell_diag_prefix (p t1 t2 : jsstring) (k : nat) :
  k <= length p -> cell (p ++ t1) (p ++ t2) k k = 0%Z.
Proof.
  induction k as [|k IH]; intros Hk; [done |].
  rewrite cell_SS. unfold charAt, char_seq.
  rewrite !lookup_app_l by lia.
  rewrite bool_decide_eq_true_2 by done. apply IH. lia.
Qed.

Lemma cell_diag_suffix (p1 p2 q : jsstring) (k : nat) :
  length p1 = length p2 -> k <= length q ->
  cell (p1 ++ q) (p2 ++ q) (length p1 + k) (length p1 + k)
  = cell (p1 ++ q) (p2 ++ q) (length p1) (length p1).
Proof.
  intros Hp. induction k as [|k IH]; intros Hk.
  - by rewrite Nat.add_0_r.
  - replace (length p1 + S k) with (S (length p1 + k)) by lia.
    rewrite cell_SS. unfold charAt, char_seq.
    assert (H2 : (p2 ++ q) !! (length p1 + k) = q !! k)
      by (rewrite Hp; apply lookup_app_plus).
    rewrite lookup_app_plus, H2.
    rewrite bool_decide_eq_true_2 by done. apply IH. lia.
Qed.

Lemma cell_transposition (p q : jsstring) (c c' : N) :
  c ≠ c' ->
  let s1 := p ++ c :: c' :: q in
  let s2 := p ++ c' :: c :: q in
  cell s1 s2 (length s2) (length s1) = 1%Z.
Proof.
  intros Hne s1 s2.
  assert (Hs1 : s1 = (p ++ [c; c']) ++ q)
    by (unfold s1; by rewrite <- app_assoc).
  assert (Hs2 : s2 = (p ++ [c'; c]) ++ q)
    by (unfold s2; by rewrite <- app_assoc).
  assert (Hl1 : length s1 = length (p ++ [c; c']) + length q)
    by (rewrite Hs1; apply length_app).
  assert (Hl2 : length s2 = length (p ++ [c; c']) + length q)
    by (rewrite Hs2, !length_app; simpl; lia).
  rewrite Hl1, Hl2, Hs1, Hs2.
  rewrite cell_diag_suffix by (rewrite ?length_app; simpl; lia).
  rewrite <- Hs1, <- Hs2.
  replace (length (p ++ [c; c'])) with (S (S (length p)))
    by (rewrite length_app; simpl; lia).
  assert (H1a : s1 !! length p = Some c).
  { unfold s1. rewrite <- (Nat.add_0_r (length p)). apply lookup_app_plus. }
  assert (H1b : s1 !! S (length p) = Some c').
  { unfold s1. rewrite <- (Nat.add_1_r (length p)). apply lookup_app_plus. }
  assert (H2a : s2 !! length p = Some c').
  { unfold s2. rewrite <- (Nat.add_0_r (length p)). apply lookup_app_plus. }
  assert (H2b : s2 !! S (length p) = Some c).
  { unfold s2. rewrite <- (Nat.add_1_r (length p)). apply lookup_app_plus. }
  assert (H0 : cell s1 s2 (length p) (length p) = 0%Z)
    by (apply cell_diag_prefix; lia).
  pose proof (cell_bounds s1 s2 (S (length p)) (S (length p))) as B1.
  pose proof (cell_bounds s1 s2 (S (S (length p))) (S (length p))) as B2.
  pose proof (cell_bounds s1 s2 (S (length p)) (S (S (length p)))) as B3.
  clearbody s1 s2.
  rewrite cell_SS. unfold charAt, char_seq.
  replace (S (length p) - 1) with (length p) by lia.
  rewrite H1a, H1b, H2a, H2b, H0.
  rewrite bool_decide_eq_false_2 by congruence.
  rewrite !bool_decide_eq_true_2 by done.
  cbn zeta. cbn [Nat.ltb Nat.leb andb].
  destruct (0 <? _)%Z eqn:Hlt; [done |].
  apply Z.ltb_ge in Hlt. lia.
Qed.

(** ** The documented edits *)

Lemma edits_ca_abc : edits 2 (js "ca") (js "abc").
Proof.
  apply (edits_S _ _ (js "ac")).
  - apply (edit_transpose [] [] 99%N 97%N).
  - apply (edits_S _ _ (js "abc")).
    + apply (edit_insert [97%N] [99%N] 98%N).
    + apply edits_O.
Qed.

Lemma no_single_edit_ca_abc : ~ edit (js "ca") (js "abc").
Proof.
  intros H.
  inversion H as [p q c H1 H2|p q c H1 H2|p q c c' H1 H2|p q c c' H1 H2];
    vm_compute in H1, H2;
    repeat (destruct p as [|? p]; simplify_eq/=).
Qed.

Lemma edits_ca_abc_min (n : nat) : edits n (js "ca") (js "abc") -> 2 <= n.
Proof.
  intros H. destruct n as [|[|n]]; [| | lia].
  - inversion H.
  - inversion H as [|? ? t ? He Hr]; subst. inversion Hr; subst.
    by apply no_single_edit_ca_abc in He.
Qed.

(** ** Calls on an engine *)

Lemma engine_call (maxLen : option nat) (h : list (jsstring * jsstring))
    (s1 s2 : jsstring) :
  length s2 <= capacity maxLen ->
  (distance_fn s1 s2 (engine_after maxLen h)).1 = Ok (dl_value s1 s2).
Proof.
  intros H2.
  destruct (distance_fn_spec s1 s2 (engine_after maxLen h)) as (m' & -> & _).
  - rewrite length_engine_after. lia.
  - done.
Qed.

Lemma capacity_ge (n : nat) : n <= capacity (Some n).
Proof. destruct n; simpl; lia. Qed.

Lemma one_minus_ratio_bounds (d n : Z) :
  (0 <= d <= n)%Z -> (0 < n)%Z ->
  (0 <= 1 - inject_Z d / inject_Z n)%Q /\
  (1 - inject_Z d / inject_Z n <= 1)%Q.
Proof.
  intros Hd Hn.
  assert (Hn' : (0 < inject_Z n)%Q) by (rewrite (Zlt_Qlt 0 n) in Hn; done).
  assert (H0 : (0 <= inject_Z d / inject_Z n)%Q).
  { apply Qle_shift_div_l; [done |]. rewrite Qmult_0_l.
    change 0%Q with (inject_Z 0). rewrite <- Zle_Qle. lia. }
  assert (H1 : (inject_Z d / inject_Z n <= 1)%Q).
  { apply Qle_shift_div_r; [done |]. rewrite Qmult_1_l.
    rewrite <- Zle_Qle. lia. }
  revert H0 H1. generalize (inject_Z d / inject_Z n)%Q. intros x H0 H1.
  split; Lqa.lra.
Qed.

(** ** The claims about the engine *)

(** C1 (the code departs from the claim): on every engine created with
    [maxLen >= 5], after any history of calls, [distance("ca","abc")]
    returns distance 3, not 2, although the minimum number of the
    documented edits that transform "ca" into "abc" is 2 (transpose "ca"
    into "ac", insert "b"). *)
Theorem dl_ca_abc_returns_3 (n : nat) (h : list (jsstring * jsstring)) :
  5 <= n ->
  (distance_fn (js "ca") (js "abc") (engine_after (Some n) h)).1
    = Ok {| distance := JInt 3; similarity := Some (0 # 3)%Q |}
  /\ edits 2 (js "ca") (js "abc")
  /\ (forall k, edits k (js "ca") (js "abc") -> 2 <= k).
Proof.
  intros Hn. split; [| split; [apply edits_ca_abc | apply edits_ca_abc_min]].
  rewrite engine_call; [done |].
  pose proof (capacity_ge n). change (3 <= capacity (Some n)). lia.
Qed.

Lemma dl_ca_abc_returns_3_witness :
  5 <= 5 /\
  ((distance_fn (js "ca") (js "abc") (engine_after (Some 5) [])).1
     = Ok {| distance := JInt 3; similarity := Some (0 # 3)%Q |}
   /\ edits 2 (js "ca") (js "abc")
   /\ (forall k, edits k (js "ca") (js "abc") -> 2 <= k)).
Proof. split; [lia | apply (dl_ca_abc_returns_3 5 []); lia]. Defined.

(** C2 (the code departs from the claim): on every engine with
    [maxLen >= 3] the triangle inequality fails for s1 = "ca", s2 = "abc",
    s3 = "ac": distance(s1,s2) = 3 while distance(s1,s3) = 1 and
    distance(s3,s2) = 1. *)
Theorem dl_triangle_violated (n : nat)
    (h12 h13 h32 : list (jsstring * jsstring)) :
  3 <= n ->
  exists r12 r13 r32 : result,
    (distance_fn (js "ca") (js "abc") (engine_after (Some n) h12)).1 = Ok r12 /\
    (distance_fn (js "ca") (js "ac") (engine_after (Some n) h13)).1 = Ok r13 /\
    (distance_fn (js "ac") (js "abc") (engine_after (Some n) h32)).1 = Ok r32 /\
    distance r12 = JInt 3 /\ distance r13 = JInt 1 /\ distance r32 = JInt 1 /\
    ~ (3 <= 1 + 1)%Z.
Proof.
  intros Hn. pose proof (capacity_ge n) as Hc.
  exists (dl_value (js "ca") (js "abc")), (dl_value (js "ca") (js "ac")),
         (dl_value (js "ac") (js "abc")).
  repeat split; try reflexivity; try lia.
  - apply engine_call. change (3 <= capacity (Some n)). lia.
  - apply engine_call. change (2 <= capacity (Some n)). lia.
  - apply engine_call. change (3 <= capacity (Some n)). lia.
Qed.

Lemma dl_triangle_violated_witness :
  3 <= 5 /\
  exists r12 r13 r32 : result,
    (distance_fn (js "ca") (js "abc") (engine_after (Some 5) [])).1 = Ok r12 /\
    (distance_fn (js "ca") (js "ac") (engine_after (Some 5) [])).1 = Ok r13 /\
    (distance_fn (js "ac") (js "abc") (engine_after (Some 5) [])).1 = Ok r32 /\
    distance r12 = JInt 3 /\ distance r13 = JInt 1 /\ distance r32 = JInt 1 /\
    ~ (3 <= 1 + 1)%Z.
Proof. split; [lia | apply (dl_triangle_violated 5 [] [] []); lia]. Defined.

(** C3: an adjacent transposition is one edit.  On every engine with
    enough capacity, after any history, the distance between a string and
    the same string with two adjacent, different characters swapped is 1;
    in particular [distance("ab","ba")] returns distance 1. *)
Theorem dl_transposition_is_one_edit (maxLen : option nat)
    (h : list (jsstring * jsstring)) (p q : jsstring) (c c' : N) :
  c ≠ c' ->
  length p + 2 + length q <= capacity maxLen ->
  (exists r,
     (distance_fn (p ++ c :: c' :: q) (p ++ c' :: c :: q)
                  (engine_after maxLen h)).1 = Ok r /\
     distance r = JInt 1) /\
  (distance_fn (js "ab") (js "ba") (engine_after maxLen h)).1
    = Ok {| distance := JInt 1; similarity := Some (1 # 2)%Q |}.
Proof.
  intros Hne Hcap. split.
  - exists (dl_value (p ++ c :: c' :: q) (p ++ c' :: c :: q)). split.
    + apply engine_call. rewrite length_app. simpl. lia.
    + unfold dl_value. rewrite !length_app. simpl length.
      replace (length p + S (S (length q)) =? 0) with false
        by (symmetry; apply Nat.eqb_neq; lia).
      simpl. f_equal.
      pose proof (cell_transposition p q c c' Hne) as Ht. simpl in Ht.
      by rewrite !length_app in Ht.
  - rewrite engine_call; [done |]. simpl. lia.
Qed.

Lemma dl_transposition_is_one_edit_witness :
  97%N ≠ 98%N /\ length (@nil N) + 2 + length (@nil N) <= capacity (Some 5) /\
  (distance_fn (js "ab") (js "ba") (engine_after (Some 5) [])).1
    = Ok {| distance := JInt 1; similarity := Some (1 # 2)%Q |}.
Proof.
  split; [done |]. split; [simpl; lia |].
  apply (dl_transposition_is_one_edit (Some 5) [] [] [] 97%N 98%N);
    [done | simpl; lia].
Defined.

(** C4: on every engine, whatever its matrix holds, if either input has
    zero length the call returns the length of the other input as
    distance and similarity 0, and leaves the matrix alone; for two empty
    inputs that is distance 0 and similarity 0. *)
Theorem dl_zero_length (m : matrix) (s1 s2 : jsstring) :
  (length s2 = 0 ->
   distance_fn s1 s2 m
     = (Ok {| distance := JInt (Z.of_nat (length s1));
              similarity := Some 0%Q |}, m)) /\
  (length s1 = 0 ->
   distance_fn s1 s2 m
     = (Ok {| distance := JInt (Z.of_nat (length s2));
              similarity := Some 0%Q |}, m)) /\
  distance_fn [] [] m
    = (Ok {| distance := JInt 0; similarity := Some 0%Q |}, m).
Proof.
  split; [| split].
  - intros H2. unfold distance_fn. by rewrite H2.
  - intros H1. unfold distance_fn. rewrite H1.
    by destruct (length s2) as [|k] eqn:E2.
  - reflexivity.
Qed.

Lemma dl_zero_length_witness :
  length (@nil N) = 0 /\
  distance_fn (js "abc") [] (createDLFunction (Some 2))
    = (Ok {| distance := JInt 3; similarity := Some 0%Q |},
       createDLFunction (Some 2)) /\
  distance_fn [] (js "abc") (createDLFunction (Some 2))
    = (Ok {| distance := JInt 3; similarity := Some 0%Q |},
       createDLFunction (Some 2)).
Proof.
  split; [reflexivity |]. split.
  - apply (dl_zero_length (createDLFunction (Some 2)) (js "abc") []).
    reflexivity.
  - apply (dl_zero_length (createDLFunction (Some 2)) [] (js "abc")).
    reflexivity.
Defined.

(** C9: on every engine, after any history, a call on inputs within the
    capacity returns an integer distance between 0 and
    max(len(s1), len(s2)) and a similarity between 0 and 1. *)
Theorem dl_distance_bounded (maxLen : option nat)
    (h : list (jsstring * jsstring)) (s1 s2 : jsstring) :
  length s1 <= capacity maxLen ->
  length s2 <= capacity maxLen ->
  exists (d : Z) (q : Q),
    (distance_fn s1 s2 (engine_after maxLen h)).1
      = Ok {| distance := JInt d; similarity := Some q |} /\
    (0 <= d <= Z.of_nat (Nat.max (length s1) (length s2)))%Z /\
    (0 <= q)%Q /\ (q <= 1)%Q.
Proof.
  intros H1 H2. rewrite engine_call by done. unfold dl_value.
  destruct (length s2 =? 0) eqn:E2.
  { apply Nat.eqb_eq in E2. eexists _, _. split; [reflexivity |].
    split; [lia |]. split; [apply Qle_refl | done]. }
  destruct (length s1 =? 0) eqn:E1.
  { apply Nat.eqb_eq in E1. eexists _, _. split; [reflexivity |].
    split; [lia |]. split; [apply Qle_refl | done]. }
  apply Nat.eqb_neq in E1, E2.
  pose proof (cell_bounds s1 s2 (length s2) (length s1)) as Hb.
  unfold js_one_minus_ratio.
  destruct (Nat.max (length s1) (length s2) =? 0) eqn:E.
  { apply Nat.eqb_eq in E. lia. }
  eexists _, _. split; [reflexivity |].
  split; [lia |].
  apply one_minus_ratio_bounds; lia.
Qed.

Lemma dl_distance_bounded_witness :
  length (js "kitten") <= capacity None /\
  length (js "sitting") <= capacity None /\
  exists (d : Z) (q : Q),
    (distance_fn (js "kitten") (js "sitting") (engine_after None [])).1
      = Ok {| distance := JInt d; similarity := Some q |} /\
    (0 <= d <= Z.of_nat (Nat.max (length (js "kitten"))
                                 (length (js "sitting"))))%Z /\
    (0 <= q)%Q /\ (q <= 1)%Q.
Proof.
  split; [simpl; lia |]. split; [simpl; lia |].
  apply (dl_distance_bounded None [] (js "kitten") (js "sitting"));
    simpl; lia.
Defined.

(** C10: the engine is observationally pure.  On inputs within the
    capacity, the result of a call after any history of calls is the
    result on the freshly created engine, a function of the two strings
    alone; and it is the same on a matrix of that size whose cells hold
    anything at all, so no cell is read before the call has written it. *)
Theorem dl_engine_pure (maxLen : option nat)
    (h : list (jsstring * jsstring)) (s1 s2 : jsstring) :
  length s1 <= capacity maxLen ->
  length s2 <= capacity maxLen ->
  (distance_fn s1 s2 (engine_after maxLen h)).1
    = (distance_fn s1 s2 (createDLFunction maxLen)).1 /\
  (distance_fn s1 s2 (engine_after maxLen h)).1 = Ok (dl_value s1 s2) /\
  (forall m : matrix,
     length m = length (createDLFunction maxLen) ->
     (distance_fn s1 s2 m).1 = Ok (dl_value s1 s2)).
Proof.
  intros H1 H2. split; [| split].
  - rewrite (engine_call maxLen h) by done.
    by rewrite (engine_call maxLen []).
  - by apply engine_call.
  - intros m Hm. rewrite length_createDLFunction in Hm.
    destruct (distance_fn_spec s1 s2 m) as (m' & -> & _); [lia | done].
Qed.

Lemma dl_engine_pure_witness :
  length (js "ab") <= capacity (Some 3) /\
  length (js "ba") <= capacity (Some 3) /\
  (distance_fn (js "ab") (js "ba")
     (engine_after (Some 3) [(js "xyz", js "zyx"); (js "abcd", js "abcd")])).1
    = (distance_fn (js "ab") (js "ba") (createDLFunction (Some 3))).1.
Proof.
  split; [simpl; lia |]. split; [simpl; lia |].
  apply (dl_engine_pure (Some 3)
           [(js "xyz", js "zyx"); (js "abcd", js "abcd")] (js "ab") (js "ba"));
    simpl; lia.
Defined.

End DLFacts.

(** * Facts about the set metrics *)

Section SetFacts.
Import SetSim.
Context {K : Type} {eqK : EqDecision K} {countK : Countable K}.

(** The loop counts the elements the two sets share. *)
Lemma count_common_spec (it other : gset K) :
  count_common it other = size (it ∩ other).
Proof.
  unfold count_common.
  apply (set_fold_ind_L (λ n X, n = size (X ∩ other))).
  - by rewrite intersection_empty_l_L, size_empty.
  - intros x X r Hx ->. destruct (decide (x ∈ other)) as [Hin|Hout].
    + replace (({[x]} ∪ X) ∩ other) with ({[x]} ∪ (X ∩ other))
        by set_solver.
      rewrite (size_union {[x]} (X ∩ other)) by set_solver.
      rewrite size_singleton. lia.
    + f_equal. set_solver.
Qed.

Lemma intersect_size_spec (sa sb : gset K) :
  intersect_size sa sb = size (sa ∩ sb).
Proof.
  unfold intersect_size. destruct (size sa <? size sb).
  - apply count_common_spec.
  - rewrite count_common_spec. f_equal. set_solver.
Qed.

Lemma intersect_size_le (sa sb : gset K) :
  intersect_size sa sb <= size sa /\ intersect_size sa sb <= size sb.
Proof.
  rewrite intersect_size_spec.
  split; apply subseteq_size; set_solver.
Qed.

Lemma num_le (a b : nat) : a <= b -> (num a <= num b)%Q.
Proof. intros Hab. unfold num. rewrite <- Zle_Qle. lia. Qed.

Lemma num_pos (a : nat) : 0 < a -> (0 < num a)%Q.
Proof.
  intros Ha. unfold num. change 0%Q with (inject_Z 0).
  rewrite <- Zlt_Qlt. lia.
Qed.

Lemma num_nonneg (a : nat) : (0 <= num a)%Q.
Proof.
  unfold num. change 0%Q with (inject_Z 0). rewrite <- Zle_Qle. lia.
Qed.

(** The Jaccard denominator is positive unless both sets are empty. *)
Lemma union_size_pos (sa sb : gset K) :
  ~ (sa = ∅ /\ sb = ∅) ->
  (0 < num (size sa) + num (size sb) - num (intersect_size sa sb))%Q.
Proof.
  intros Hne. destruct (intersect_size_le sa sb) as [Ha Hb].
  pose proof (num_le _ _ Ha) as Ha'. pose proof (num_le _ _ Hb) as Hb'.
  pose proof (num_nonneg (size sa)) as Na.
  pose proof (num_nonneg (size sb)) as Nb.
  destruct (decide (size sa = 0)) as [Ea|Ea].
  - destruct (decide (size sb = 0)) as [Eb|Eb].
    + exfalso. apply Hne.
      split; apply leibniz_equiv, size_empty_inv; done.
    + pose proof (num_pos (size sb) ltac:(lia)). Lqa.lra.
  - pose proof (num_pos (size sa) ltac:(lia)). Lqa.lra.
Qed.

Lemma js_div_defined (x y : Q) :
  ~ (y == 0)%Q -> js_div x y = Some (x / y)%Q.
Proof.
  intros Hy. unfold js_div.
  destruct (Qeq_bool y 0) eqn:E; [| done].
  by apply Qeq_bool_eq in E.
Qed.

(** C7: unless both sets are empty, [tversky(A,B,1,1)] returns the
    similarity and the distance of [jaccard(A,B)], a finite number, the
    size of the intersection over the size of the union; and
    [tversky(A,B)] with both parameters omitted is [tversky(A,B,0.5,0.5)],
    whose similarity is the Dice coefficient 2|A∩B| / (|A| + |B|). *)
Theorem tversky_jaccard_dice (sa sb : gset K) :
  ~ (sa = ∅ /\ sb = ∅) ->
  same_num (similarity (tversky sa sb (Some 1%Q) (Some 1%Q)))
           (similarity (jaccard sa sb)) /\
  same_num (distance (tversky sa sb (Some 1%Q) (Some 1%Q)))
           (distance (jaccard sa sb)) /\
  same_num (similarity (jaccard sa sb))
           (Some (num (size (sa ∩ sb)) / num (size (sa ∪ sb)))%Q) /\
  tversky sa sb None None = tversky sa sb (Some 0.5%Q) (Some 0.5%Q) /\
  same_num (similarity (tversky sa sb None None))
           (Some (2 * num (size (sa ∩ sb))
                  / (num (size sa) + num (size sb)))%Q).
Proof.
  intros Hne. pose proof (union_size_pos sa sb Hne) as Hpos.
  unfold tversky, jaccard. cbn [similarity distance].
  set (i := intersect_size sa sb) in *.
  assert (Hden : (num i + 1 * (num (size sa) - num i)
                  + 1 * (num (size sb) - num i)
                  == num (size sa) + num (size sb) - num i)%Q) by ring.
  assert (Hsum : (0 < num (size sa) + num (size sb))%Q).
  { pose proof (num_nonneg i). Lqa.lra. }
  assert (Hdice : (num i + 0.5 * (num (size sa) - num i)
                   + 0.5 * (num (size sb) - num i)
                   == 0.5 * (num (size sa) + num (size sb)))%Q) by ring.
  assert (Hunion : (num (size (sa ∪ sb))
                    == num (size sa) + num (size sb) - num i)%Q).
  { unfold i. rewrite intersect_size_spec. unfold num.
    unfold Qminus.
    rewrite <- inject_Z_plus, <- inject_Z_opp, <- inject_Z_plus.
    apply inject_Z_injective.
    pose proof (size_union_alt sa sb) as Hu.
    assert (Hs : size sb = size (sb ∖ sa) + size (sa ∩ sb)).
    { rewrite <- (size_union (sb ∖ sa) (sa ∩ sb)) by set_solver. f_equal.
      apply set_eq. intros x. rewrite elem_of_union, elem_of_difference,
        elem_of_intersection. destruct (decide (x ∈ sa)); naive_solver. }
    lia. }
  rewrite !js_div_defined by (rewrite ?Hden, ?Hdice; Lqa.lra).
  cbn [same_num js_one_minus fmap option_fmap option_map].
  split; [by rewrite Hden |]. split; [by rewrite Hden |].
  split; [unfold i at 1; by rewrite intersect_size_spec, Hunion |].
  split; [done |].
  rewrite Hdice. unfold i. rewrite intersect_size_spec.
  field. Lqa.lra.
Qed.

End SetFacts.

Lemma tversky_jaccard_dice_witness :
  ~ (SetSim.example_a = ∅ /\ SetSim.example_b = ∅) /\
  SetSim.same_num
    (SetSim.similarity
       (SetSim.tversky SetSim.example_a SetSim.example_b (Some 1%Q) (Some 1%Q)))
    (SetSim.similarity (SetSim.jaccard SetSim.example_a SetSim.example_b)) /\
  SetSim.same_num
    (SetSim.distance
       (SetSim.tversky SetSim.example_a SetSim.example_b (Some 1%Q) (Some 1%Q)))
    (SetSim.distance (SetSim.jaccard SetSim.example_a SetSim.example_b)) /\
  SetSim.same_num
    (SetSim.similarity (SetSim.jaccard SetSim.example_a SetSim.example_b))
    (Some (SetSim.num (size (SetSim.example_a ∩ SetSim.example_b))
           / SetSim.num (size (SetSim.example_a ∪ SetSim.example_b)))%Q) /\
  SetSim.tversky SetSim.example_a SetSim.example_b None None
    = SetSim.tversky SetSim.example_a SetSim.example_b
                     (Some 0.5%Q) (Some 0.5%Q) /\
  SetSim.same_num
    (SetSim.similarity
       (SetSim.tversky SetSim.example_a SetSim.example_b None None))
    (Some (2 * SetSim.num (size (SetSim.example_a ∩ SetSim.example_b))
           / (SetSim.num (size SetSim.example_a)
              + SetSim.num (size SetSim.example_b)))%Q).
Proof.
  assert (Hne : ~ (SetSim.example_a = ∅ /\ SetSim.example_b = ∅)).
  { intros [Habs _]. apply (f_equal size) in Habs. by vm_compute in Habs. }
  split; [exact Hne |].
  exact (tversky_jaccard_dice SetSim.example_a SetSim.example_b Hne).
Defined.

(** * Facts about Jaro-Winkler *)

Section JWFacts.
Import JW.
Variable jaro : jsstring -> jsstring -> result.

(** The loop with its [break] counts the common prefix, up to its
    limit. *)
Lemma prefix_loop_spec (s1 s2 : jsstring) (n i l : nat) :
  i + n <= Nat.min (length s1) (length s2) ->
  prefix_loop s1 s2 i l n
  = l + Nat.min n (common_prefix_length (drop i s1) (drop i s2)).
Proof.
  revert i l. induction n as [|n IH]; intros i l Hn; simpl; [lia |].
  destruct (lookup_lt_is_Some_2 s1 i ltac:(lia)) as [c1 H1].
  destruct (lookup_lt_is_Some_2 s2 i ltac:(lia)) as [c2 H2].
  rewrite (drop_S _ _ _ H1), (drop_S _ _ _ H2), H1, H2.
  cbn [common_prefix_length].
  destruct (decide (c1 = c2)) as [->|Hne].
  - rewrite !bool_decide_eq_true_2 by done.
    rewrite IH by lia. replace (i + 1) with (S i) by lia. lia.
  - rewrite !bool_decide_eq_false_2 by congruence. lia.
Qed.

Lemma prefix_loop_capped (s1 s2 : jsstring) :
  prefix_loop s1 s2 0 0 (Nat.min (Nat.min (length s1) (length s2)) 4)
  = capped_prefix s1 s2.
Proof.
  rewrite prefix_loop_spec by lia. unfold capped_prefix.
  rewrite !drop_0. lia.
Qed.

(** [Math.min( Math.abs( x ), cap )] is the normalisation the
    specification words. *)
Lemma normalized_code (dflt cap : Q) (p : option Q) :
  (Qmin (Qabs (match p with None => dflt | Some x => x end)) cap
   == normalized dflt cap p)%Q.
Proof.
  unfold normalized.
  generalize (match p with None => dflt | Some x => x end). intros x.
  assert (Habs : (Qabs x == if Qlt_le_dec x 0 then - x else x)%Q).
  { destruct (Qlt_le_dec x 0) as [Hneg|Hpos].
    - apply Qabs_neg. by apply Qlt_le_weak.
    - by apply Qabs_pos. }
  revert Habs. generalize (Qabs x).
  generalize (if Qlt_le_dec x 0 then (- x)%Q else x). intros y a Ha.
  destruct (Q.min_spec a cap) as [[Hlt ->]|[Hle ->]];
    destruct (Qlt_le_dec cap y); Lqa.lra.
Qed.

Lemma normalized_nonneg (dflt cap : Q) (p : option Q) :
  (0 <= cap)%Q -> (0 <= normalized dflt cap p)%Q.
Proof.
  intros Hcap. unfold normalized.
  generalize (match p with None => dflt | Some x => x end). intros x.
  destruct (Qlt_le_dec x 0); destruct (Qlt_le_dec cap _); Lqa.lra.
Qed.

Lemma js_lt_spec (x y : Q) : js_lt x y = true <-> (x < y)%Q.
Proof.
  unfold js_lt. rewrite Qlt_alt.
  destruct (x ?= y)%Q; split; congruence.
Qed.

Lemma js_lt_false (x y : Q) : (y <= x)%Q -> js_lt x y = false.
Proof.
  intros Hle. destruct (js_lt x y) eqn:E; [| done].
  apply js_lt_spec in E. Lqa.lra.
Qed.

(** C5: for non-identical strings whose base Jaro similarity is at least
    the normalised boost threshold, [jaroWinkler] returns similarity
    base + l * sf * (1 - base) and distance 1 minus that value, [l] being
    the count of leading matching positions capped at 4 and at the length
    of the shorter string, and [sf] and the threshold the parameters after
    defaulting (0.1, 0.7), taking the absolute value and capping (0.25,
    1). *)
Theorem jaroWinkler_boosted (s1 s2 : jsstring)
    (scalingFactor boostThreshold : option Q) :
  s1 ≠ s2 ->
  (normalized 0.7 1 boostThreshold <= similarity (jaro s1 s2))%Q ->
  let base := similarity (jaro s1 s2) in
  let l := inject_Z (Z.of_nat (capped_prefix s1 s2)) in
  let sf := normalized 0.1 0.25 scalingFactor in
  let r := jaroWinkler jaro s1 s2 scalingFactor boostThreshold in
  (similarity r == base + l * sf * (1 - base))%Q /\
  (distance r == 1 - (base + l * sf * (1 - base)))%Q.
Proof.
  intros Hne Hbt base l sf r. unfold r, jaroWinkler.
  rewrite bool_decide_eq_false_2 by done.
  rewrite js_lt_false by (rewrite normalized_code; exact Hbt).
  cbn [similarity distance].
  rewrite prefix_loop_capped, normalized_code.
  fold base l sf. split; reflexivity.
Qed.

(** C6: whatever the strings and the parameters, if the base Jaro
    similarity lies in [0,1] then the similarity [jaroWinkler] returns is
    at least the base Jaro similarity. *)
Theorem jaroWinkler_ge_jaro (s1 s2 : jsstring)
    (scalingFactor boostThreshold : option Q) :
  (0 <= similarity (jaro s1 s2))%Q ->
  (similarity (jaro s1 s2) <= 1)%Q ->
  (similarity (jaro s1 s2)
   <= similarity (jaroWinkler jaro s1 s2 scalingFactor boostThreshold))%Q.
Proof.
  intros H0 H1. unfold jaroWinkler.
  destruct (bool_decide (s1 = s2)); [exact H1 |].
  destruct (js_lt _ _); [apply Qle_refl |].
  cbn [similarity].
  rewrite prefix_loop_capped, normalized_code.
  assert (Hl : (0 <= inject_Z (Z.of_nat (capped_prefix s1 s2)))%Q).
  { change 0%Q with (inject_Z 0). rewrite <- Zle_Qle. lia. }
  assert (Hsf : (0 <= normalized 0.1 0.25 scalingFactor)%Q)
    by (apply normalized_nonneg; Lqa.lra).
  assert (Hp : (0 <= inject_Z (Z.of_nat (capped_prefix s1 s2))
                    * normalized 0.1 0.25 scalingFactor
                    * (1 - similarity (jaro s1 s2)))%Q).
  { apply Qmult_le_0_compat; [apply Qmult_le_0_compat; done | Lqa.lra]. }
  revert Hp. generalize (inject_Z (Z.of_nat (capped_prefix s1 s2))
                         * normalized 0.1 0.25 scalingFactor
                         * (1 - similarity (jaro s1 s2)))%Q.
  intros x Hx. Lqa.lra.
Qed.

End JWFacts.

Lemma jaroWinkler_boosted_witness :
  js "martha" ≠ js "marhta" /\
  (JW.normalized 0.7 1 None
   <= JW.similarity (JW.sample_jaro (js "martha") (js "marhta")))%Q /\
  (JW.similarity
     (JW.jaroWinkler JW.sample_jaro (js "martha") (js "marhta") None None)
   == (17 # 18) + inject_Z 3 * 0.1 * (1 - (17 # 18)))%Q.
Proof.
  assert (Hne : js "martha" ≠ js "marhta") by (vm_compute; congruence).
  assert (Hbt : (JW.normalized 0.7 1 None
                 <= JW.similarity
                      (JW.sample_jaro (js "martha") (js "marhta")))%Q)
    by (vm_compute; congruence).
  split; [exact Hne |]. split; [exact Hbt |].
  exact (proj1 (jaroWinkler_boosted JW.sample_jaro (js "martha") (js "marhta")
                  None None Hne Hbt)).
Defined.

Lemma jaroWinkler_ge_jaro_witness :
  (0 <= JW.similarity (JW.sample_jaro (js "martha") (js "marhta")))%Q /\
  (JW.similarity (JW.sample_jaro (js "martha") (js "marhta")) <= 1)%Q /\
  (JW.similarity (JW.sample_jaro (js "martha") (js "marhta"))
   <= JW.similarity
        (JW.jaroWinkler JW.sample_jaro (js "martha") (js "marhta")
                        (Some (-3)%Q) (Some 0.5%Q)))%Q.
Proof.
  assert (H0 : (0 <= JW.similarity
                       (JW.sample_jaro (js "martha") (js "marhta")))%Q)
    by (vm_compute; congruence).
  assert (H1 : (JW.similarity
                  (JW.sample_jaro (js "martha") (js "marhta")) <= 1)%Q)
    by (vm_compute; congruence).
  split; [exact H0 |]. split; [exact H1 |].
  exact (jaroWinkler_ge_jaro JW.sample_jaro (js "martha") (js "marhta")
           (Some (-3)%Q) (Some 0.5%Q) H0 H1).
Defined.

(** * Facts about the bag-of-words cosine *)

Section BowFacts.
Import Bow.
Local Open Scope R_scope.

(** ** Sums over a vector *)






(** ** The three loops *)







End BowFacts.

(** * More about the Damerau-Levenshtein engine *)

Section DLMore.
Import DL DLInv.

(** ** The matrix keeps its shape *)

Lemma length_row_set (r : row) (j : nat) (v : jsval) :
  length r <= length (row_set r j v).
Proof.
  unfold row_set. destruct (j <? length r).
  - by rewrite length_insert.
  - rewrite length_app. lia.
Qed.

Lemma preserves_ret {A : Type} (P : matrix -> Prop) (a : A) :
  preserves P (mret a).
Proof. by intros m Hm. Qed.

Lemma preserves_bind {A B : Type} (P : matrix -> Prop)
    (c : M A) (f : A -> M B) :
  preserves P c -> (forall a, preserves P (f a)) -> preserves P (c ≫= f).
Proof.
  intros Hc Hf m Hm. unfold mbind, M_bind. specialize (Hc m Hm).
  destruct (c m) as [[a|] m']; simpl in *; [| done].
  by apply Hf.
Qed.

Lemma preserves_for (P : matrix -> Prop) (body : nat -> M unit)
    (lo n : nat) :
  (forall k, preserves P (body k)) -> preserves P (for_range lo n body).
Proof.
  intros Hb. revert lo. induction n as [|n IH]; intros lo; simpl.
  - apply preserves_ret.
  - apply preserves_bind; auto.
Qed.

Lemma preserves_mread (P : matrix -> Prop) (i j : nat) :
  preserves P (mread i j).
Proof. intros m Hm. unfold mread. by destruct (m !! i). Qed.

Lemma preserves_mwrite (n i j : nat) (v : jsval) :
  preserves (well_formed n) (mwrite i j v).
Proof.
  intros m [Hlen Hrows]. unfold mwrite.
  destruct (m !! i) as [r|] eqn:Hr; [| done]. simpl. split.
  - by rewrite length_insert.
  - apply Forall_insert; [done |].
    pose proof (length_row_set r j v).
    pose proof (Forall_lookup_1 _ _ _ _ Hrows Hr) as Hle. simpl in Hle. lia.
Qed.

Lemma preserves_cell_step (n : nat) (s1 s2 : jsstring) (i j : nat) :
  preserves (well_formed n) (cell_step s1 s2 i j).
Proof.
  unfold cell_step.
  repeat first
    [ apply preserves_bind; [| intros ?]
    | match goal with |- preserves _ (if ?b then _ else _) => destruct b end
    | apply preserves_ret | apply preserves_mread | apply preserves_mwrite ].
Qed.

Lemma preserves_distance_fn (n : nat) (s1 s2 : jsstring) :
  preserves (well_formed n) (distance_fn s1 s2).
Proof.
  unfold distance_fn.
  repeat first
    [ apply preserves_bind; [| intros ?]
    | match goal with |- preserves _ (if ?b then _ else _) => destruct b end
    | apply preserves_for; intros ?
    | apply preserves_cell_step
    | apply preserves_ret | apply preserves_mread | apply preserves_mwrite ].
Qed.

(** X1: whatever calls were made on an engine, and whether they returned or
    threw, its matrix still has [max = ( maxLen || 60 ) + 1] rows of at
    least [max] cells each. *)
Theorem engine_matrix_shape (maxLen : option nat)
    (h : list (jsstring * jsstring)) :
  well_formed (capacity maxLen + 1) (engine_after maxLen h).
Proof.
  induction h as [|[s1 s2] h IH]; simpl.
  - unfold createDLFunction. split.
    + apply length_replicate.
    + apply Forall_replicate. by rewrite length_replicate.
  - by apply preserves_distance_fn.
Qed.

(** ** Exceeding the capacity *)

Lemma bind_err {A B : Type} (c : M A) (f : A -> M B) (m m' : matrix) :
  c m = (TypeError, m') -> (c ≫= f) m = (TypeError, m').
Proof. intros Hc. unfold mbind, M_bind. by rewrite Hc. Qed.

Lemma init_rows_throws (n lo : nat) (m : matrix) :
  lo <= length m < lo + n ->
  exists m',
    for_range lo n (λ i, mwrite i 0 (JInt (Z.of_nat i))) m = (TypeError, m').
Proof.
  revert lo m. induction n as [|n IH]; intros lo m Hlo; [lia |]. simpl.
  destruct (decide (lo = length m)) as [->|Hne].
  - exists m. apply bind_err. unfold mwrite.
    by rewrite lookup_ge_None_2.
  - rewrite (bind_ok _ _ _ _ _ (mwrite_ok m lo 0 _ ltac:(lia))).
    apply IH. rewrite length_mset. lia.
Qed.

(** X2: a call whose second string is longer than the capacity, the first
    one not being empty, throws the [TypeError] of indexing a row that does
    not exist; the engine stays usable: any later call within the capacity
    returns what a fresh engine returns. *)
Theorem dl_capacity_exceeded (maxLen : option nat)
    (h : list (jsstring * jsstring)) (s1 s2 : jsstring) :
  capacity maxLen < length s2 -> s1 ≠ [] ->
  (distance_fn s1 s2 (engine_after maxLen h)).1 = TypeError /\
  (forall t1 t2 : jsstring,
     length t2 <= capacity maxLen ->
     (distance_fn t1 t2 (engine_after maxLen ((s1, s2) :: h))).1
       = (distance_fn t1 t2 (createDLFunction maxLen)).1).
Proof.
  intros Hcap Hs1. split.
  - unfold distance_fn.
    destruct (length s2 =? 0) eqn:E2; [apply Nat.eqb_eq in E2; lia |].
    destruct (length s1 =? 0) eqn:E1.
    { apply Nat.eqb_eq in E1. by destruct s1. }
    destruct (init_rows_throws (length s2 + 1) 0 (engine_after maxLen h))
      as (m' & Hthrow).
    + rewrite length_engine_after. lia.
    + by rewrite (bind_err _ _ _ _ Hthrow).
  - intros t1 t2 Ht.
    rewrite (engine_call maxLen ((s1, s2) :: h)) by done.
    by rewrite (engine_call maxLen []).
Qed.

Lemma dl_capacity_exceeded_witness :
  capacity (Some 2) < length (js "abc") /\ js "ab" ≠ [] /\
  (distance_fn (js "ab") (js "abc") (engine_after (Some 2) [])).1 = TypeError.
Proof.
  split; [simpl; lia |]. split; [done |].
  apply (dl_capacity_exceeded (Some 2) [] (js "ab") (js "abc"));
    [simpl; lia | done].
Defined.

(** X3: the capacity binds the second string only.  However long the first
    string is, a call whose second string fits returns, and returns the
    value of the recurrence: a row written past its end grows. *)
Theorem dl_long_first_string (maxLen : option nat)
    (h : list (jsstring * jsstring)) (s1 s2 : jsstring) :
  length s2 <= capacity maxLen ->
  exists (d : Z) (q : Q),
    (distance_fn s1 s2 (engine_after maxLen h)).1
      = Ok {| distance := JInt d; similarity := Some q |} /\
    (0 <= d <= Z.of_nat (Nat.max (length s1) (length s2)))%Z.
Proof.
  intros H2. rewrite engine_call by done. unfold dl_value.
  destruct (length s2 =? 0) eqn:E2.
  { eexists _, _. split; [reflexivity | lia]. }
  destruct (length s1 =? 0) eqn:E1.
  { eexists _, _. split; [reflexivity | lia]. }
  apply Nat.eqb_neq in E1, E2.
  pose proof (cell_bounds s1 s2 (length s2) (length s1)) as Hb.
  unfold js_one_minus_ratio.
  destruct (Nat.max (length s1) (length s2) =? 0) eqn:E.
  { apply Nat.eqb_eq in E. lia. }
  eexists _, _. split; [reflexivity | lia].
Qed.

Lemma dl_long_first_string_witness :
  length (js "ab") <= capacity (Some 2) /\
  exists (d : Z) (q : Q),
    (distance_fn (js "abcdefgh") (js "ab") (engine_after (Some 2) [])).1
      = Ok {| distance := JInt d; similarity := Some q |} /\
    (0 <= d <= Z.of_nat (Nat.max (length (js "abcdefgh"))
                                 (length (js "ab"))))%Z.
Proof.
  split; [simpl; lia |].
  apply (dl_long_first_string (Some 2) [] (js "abcdefgh") (js "ab")).
  simpl; lia.
Defined.

End DLMore.

(** * The distance as a metric *)

Section DLMetric.
Import DL.

Lemma char_seq_sym (x y : option N) : char_seq x y = char_seq y x.
Proof.
  unfold char_seq. destruct (decide (x = y)) as [->|Hne]; [done |].
  rewrite !bool_decide_eq_false_2; congruence.
Qed.

Lemma cell_sym (s1 s2 : jsstring) (i j : nat) :
  cell s1 s2 i j = cell s2 s1 j i.
Proof.
  revert j. induction i as [i IHi] using lt_wf_ind. intros j.
  destruct i as [|i]; [by rewrite cell_row0, cell_col0 |].
  induction j as [|j IHj]; [by rewrite cell_row0, cell_col0 |].
  rewrite !cell_SS.
  rewrite (IHi i ltac:(lia) j), (IHi i ltac:(lia) (S j)), IHj.
  rewrite (IHi (i - 1) ltac:(lia) (j - 1)).
  rewrite (char_seq_sym (charAt s2 i) (charAt s1 j)).
  rewrite (char_seq_sym (charAt s2 i) (charAt s1 (j - 1))).
  rewrite (char_seq_sym (charAt s2 (i - 1)) (charAt s1 j)).
  destruct (char_seq (charAt s1 j) (charAt s2 i)); [done |].
  cbn zeta.
  replace (Z.min (Z.min (cell s2 s1 j i + 1) (cell s2 s1 (S j) i + 1))
                 (cell s2 s1 j (S i) + 1))
    with (Z.min (Z.min (cell s2 s1 j i + 1) (cell s2 s1 j (S i) + 1))
                (cell s2 s1 (S j) i + 1)) by lia.
  destruct (1 <? S i), (1 <? S j),
    (char_seq (charAt s1 (j - 1)) (charAt s2 i)),
    (char_seq (charAt s1 j) (charAt s2 (i - 1))); reflexivity.
Qed.

Lemma dl_value_distance (s1 s2 : jsstring) :
  distance (dl_value s1 s2) = JInt (cell s1 s2 (length s2) (length s1)).
Proof.
  unfold dl_value.
  destruct (length s2 =? 0) eqn:E2.
  { apply Nat.eqb_eq in E2. rewrite E2. by rewrite cell_row0. }
  destruct (length s1 =? 0) eqn:E1; [| done].
  apply Nat.eqb_eq in E1. rewrite E1. by rewrite cell_col0.
Qed.

Lemma dl_value_sym (s1 s2 : jsstring) : dl_value s1 s2 = dl_value s2 s1.
Proof.
  unfold dl_value.
  destruct (length s2 =? 0) eqn:E2, (length s1 =? 0) eqn:E1;
    rewrite ?Nat.eqb_eq in *; try done.
  - by rewrite E1, E2.
  - by rewrite cell_sym, Nat.max_comm.
Qed.

(** X4: the distance is symmetric.  On inputs within the capacity, after
    any histories, [distance(s1,s2)] and [distance(s2,s1)] return the same
    result object. *)
Theorem dl_symmetric (maxLen : option nat)
    (h h' : list (jsstring * jsstring)) (s1 s2 : jsstring) :
  length s1 <= capacity maxLen ->
  length s2 <= capacity maxLen ->
  (distance_fn s1 s2 (engine_after maxLen h)).1
    = (distance_fn s2 s1 (engine_after maxLen h')).1.
Proof.
  intros H1 H2. rewrite !engine_call by done. by rewrite dl_value_sym.
Qed.

Lemma dl_symmetric_witness :
  length (js "kitten") <= capacity None /\
  length (js "sitting") <= capacity None /\
  (distance_fn (js "kitten") (js "sitting") (engine_after None [])).1
    = (distance_fn (js "sitting") (js "kitten") (engine_after None [])).1.
Proof.
  split; [simpl; lia |]. split; [simpl; lia |].
  apply (dl_symmetric None [] [] (js "kitten") (js "sitting")); simpl; lia.
Defined.

(** A cell is 0 only on the diagonal, below equal prefixes. *)
Lemma cell_zero_inv (s1 s2 : jsstring) (i j : nat) :
  i <= length s2 -> j <= length s1 ->
  cell s1 s2 i j = 0%Z -> i = j /\ take i s2 = take j s1.
Proof.
  revert j. induction i as [|i IH]; intros j Hi Hj Hz.
  { rewrite cell_row0 in Hz. assert (j = 0) as -> by lia. by rewrite !take_0. }
  destruct j as [|j]; [rewrite cell_col0 in Hz; lia |].
  rewrite cell_SS in Hz.
  pose proof (cell_bounds s1 s2 i j) as Bd.
  pose proof (cell_bounds s1 s2 (S i) j) as Bl.
  pose proof (cell_bounds s1 s2 i (S j)) as Bu.
  pose proof (cell_bounds s1 s2 (i - 1) (j - 1)) as Bt.
  destruct (char_seq (charAt s2 i) (charAt s1 j)) eqn:Hc.
  - destruct (IH j ltac:(lia) ltac:(lia) Hz) as [-> Ht]. split; [done |].
    apply bool_decide_eq_true_1 in Hc. unfold charAt in Hc.
    destruct (lookup_lt_is_Some_2 s2 j ltac:(lia)) as [c2 H2].
    destruct (lookup_lt_is_Some_2 s1 j ltac:(lia)) as [c1 H1].
    rewrite (take_S_r _ _ _ H2), (take_S_r _ _ _ H1), Ht. congruence.
  - cbn zeta in Hz. destruct (_ && _) in Hz; lia.
Qed.

(** X5: within the capacity, the returned distance is 0 exactly when the
    two strings are equal. *)
Theorem dl_zero_iff_equal (maxLen : option nat)
    (h : list (jsstring * jsstring)) (s1 s2 : jsstring) :
  length s1 <= capacity maxLen ->
  length s2 <= capacity maxLen ->
  (exists r, (distance_fn s1 s2 (engine_after maxLen h)).1 = Ok r /\
             distance r = JInt 0)
  <-> s1 = s2.
Proof.
  intros H1 H2. rewrite engine_call by done. split.
  - intros (r & [= <-] & Hd). rewrite dl_value_distance in Hd.
    injection Hd as Hd.
    destruct (cell_zero_inv s1 s2 (length s2) (length s1)) as [Hl Ht];
      [lia | lia | done |].
    rewrite Hl in Ht at 1. rewrite <- Hl in Ht at 1.
    by rewrite !firstn_all in Ht.
  - intros ->. exists (dl_value s2 s2). split; [done |].
    rewrite dl_value_distance. f_equal.
    pose proof (cell_diag_prefix s2 [] [] (length s2) ltac:(lia)) as Hp.
    by rewrite !app_nil_r in Hp.
Qed.

Lemma dl_zero_iff_equal_witness :
  length (js "abc") <= capacity (Some 3) /\
  ((exists r,
      (distance_fn (js "abc") (js "abc") (engine_after (Some 3) [])).1 = Ok r /\
      distance r = JInt 0)
   <-> js "abc" = js "abc").
Proof.
  split; [simpl; lia |].
  apply (dl_zero_iff_equal (Some 3) [] (js "abc") (js "abc")); simpl; lia.
Defined.

(** X6: the distance of a string to itself is 0; the similarity is 1 for
    a non-empty string and 0 for the empty one. *)
Theorem dl_identical (maxLen : option nat)
    (h : list (jsstring * jsstring)) (s : jsstring) :
  length s <= capacity maxLen ->
  exists q : Q,
    (distance_fn s s (engine_after maxLen h)).1
      = Ok {| distance := JInt 0; similarity := Some q |} /\
    (s ≠ [] -> (q == 1)%Q) /\ (s = [] -> (q == 0)%Q).
Proof.
  intros Hs. rewrite engine_call by done. unfold dl_value.
  assert (Hc : cell s s (length s) (length s) = 0%Z).
  { pose proof (cell_diag_prefix s [] [] (length s) ltac:(lia)) as Hp.
    by rewrite !app_nil_r in Hp. }
  destruct (decide (s = [])) as [->|Hne].
  { exists 0%Q. split; [done |]. split; [done | reflexivity]. }
  assert (Hl : length s ≠ 0) by (destruct s; simpl; [done | lia]).
  apply Nat.eqb_neq in Hl. rewrite Hl.
  rewrite Hc. unfold js_one_minus_ratio. rewrite Nat.max_id, Hl.
  eexists. split; [reflexivity |]. split; [| done].
  intros _. unfold Qdiv. rewrite Qmult_0_l. reflexivity.
Qed.

Lemma dl_identical_witness :
  length (js "martha") <= capacity None /\
  exists q : Q,
    (distance_fn (js "martha") (js "martha") (engine_after None [])).1
      = Ok {| distance := JInt 0; similarity := Some q |} /\
    (js "martha" ≠ [] -> (q == 1)%Q) /\ (js "martha" = [] -> (q == 0)%Q).
Proof.
  split; [simpl; lia |].
  apply (dl_identical None [] (js "martha")). simpl; lia.
Defined.

(** A cell is at least the difference of its indices. *)
Lemma cell_lower (s1 s2 : jsstring) (i j : nat) :
  (Z.abs (Z.of_nat i - Z.of_nat j) <= cell s1 s2 i j)%Z.
Proof.
  revert j. induction i as [i IHi] using lt_wf_ind. intros j.
  destruct i as [|i]; [rewrite cell_row0; lia |].
  induction j as [|j IHj]; [rewrite cell_col0; lia |].
  rewrite cell_SS.
  pose proof (IHi i ltac:(lia) j) as Hd.
  pose proof (IHi i ltac:(lia) (S j)) as Hu.
  pose proof (IHi (i - 1) ltac:(lia) (j - 1)) as Ht.
  destruct (char_seq (charAt s2 i) (charAt s1 j)); [lia |].
  cbn zeta.
  destruct ((1 <? S i) && (1 <? S j) && _ && _ && _) eqn:Hsw; [| lia].
  apply andb_prop in Hsw as [Hsw _]. apply andb_prop in Hsw as [Hsw _].
  apply andb_prop in Hsw as [Hsw _]. apply andb_prop in Hsw as [Hi Hj].
  apply Nat.ltb_lt in Hi, Hj. lia.
Qed.

(** X7: within the capacity, the returned distance is at least the
    difference of the two lengths. *)
Theorem dl_distance_at_least_length_gap (maxLen : option nat)
    (h : list (jsstring * jsstring)) (s1 s2 : jsstring) :
  length s1 <= capacity maxLen ->
  length s2 <= capacity maxLen ->
  exists (d : Z) (sim : option Q),
    (distance_fn s1 s2 (engine_after maxLen h)).1
      = Ok {| distance := JInt d; similarity := sim |} /\
    (Z.abs (Z.of_nat (length s1) - Z.of_nat (length s2)) <= d)%Z.
Proof.
  intros H1 H2. rewrite engine_call by done.
  pose proof (dl_value_distance s1 s2) as Hd.
  pose proof (cell_lower s1 s2 (length s2) (length s1)) as Hl.
  destruct (dl_value s1 s2) as [d sim]. simpl in Hd. subst d.
  eexists _, _. split; [reflexivity | lia].
Qed.

Lemma dl_distance_at_least_length_gap_witness :
  length (js "a") <= capacity None /\
  length (js "abcd") <= capacity None /\
  exists (d : Z) (sim : option Q),
    (distance_fn (js "a") (js "abcd") (engine_after None [])).1
      = Ok {| distance := JInt d; similarity := sim |} /\
    (Z.abs (Z.of_nat (length (js "a")) - Z.of_nat (length (js "abcd"))) <= d)%Z.
Proof.
  split; [simpl; lia |]. split; [simpl; lia |].
  apply (dl_distance_at_least_length_gap None [] (js "a") (js "abcd"));
    simpl; lia.
Defined.

(** The cell below a substituted character. *)
Lemma cell_substitution (p q : jsstring) (c c' : N) :
  c ≠ c' ->
  let s1 := p ++ c :: q in
  let s2 := p ++ c' :: q in
  cell s1 s2 (length s2) (length s1) = 1%Z.
Proof.
  intros Hne s1 s2.
  assert (Hs1 : s1 = (p ++ [c]) ++ q) by (unfold s1; by rewrite <- app_assoc).
  assert (Hs2 : s2 = (p ++ [c']) ++ q) by (unfold s2; by rewrite <- app_assoc).
  assert (Hl1 : length s1 = length (p ++ [c]) + length q)
    by (rewrite Hs1; apply length_app).
  assert (Hl2 : length s2 = length (p ++ [c]) + length q)
    by (rewrite Hs2, !length_app; simpl; lia).
  rewrite Hl1, Hl2, Hs1, Hs2.
  rewrite cell_diag_suffix by (rewrite ?length_app; simpl; lia).
  rewrite <- Hs1, <- Hs2.
  replace (length (p ++ [c])) with (S (length p))
    by (rewrite length_app; simpl; lia).
  assert (H1 : s1 !! length p = Some c).
  { unfold s1. rewrite <- (Nat.add_0_r (length p)). apply lookup_app_plus. }
  assert (H2 : s2 !! length p = Some c').
  { unfold s2. rewrite <- (Nat.add_0_r (length p)). apply lookup_app_plus. }
  assert (H0 : cell s1 s2 (length p) (length p) = 0%Z)
    by (apply cell_diag_prefix; lia).
  pose proof (cell_bounds s1 s2 (S (length p)) (length p)) as B1.
  pose proof (cell_bounds s1 s2 (length p) (S (length p))) as B2.
  pose proof (cell_bounds s1 s2 (length p - 1) (length p - 1)) as B3.
  clearbody s1 s2.
  rewrite cell_SS. unfold charAt at 1 2, char_seq at 1.
  rewrite H1, H2, H0.
  rewrite bool_decide_eq_false_2 by congruence.
  cbn zeta.
  destruct (_ && (cell s1 s2 (length p - 1) (length p - 1) <? _)%Z) eqn:Hsw;
    [| lia].
  apply andb_prop in Hsw as [_ Hlt]. apply Z.ltb_lt in Hlt. lia.
Qed.

(** X8: substituting one character by a different one, anywhere in a
    string, gives distance 1. *)
Theorem dl_substitution_is_one_edit (maxLen : option nat)
    (h : list (jsstring * jsstring)) (p q : jsstring) (c c' : N) :
  c ≠ c' ->
  length p + 1 + length q <= capacity maxLen ->
  exists r,
    (distance_fn (p ++ c :: q) (p ++ c' :: q) (engine_after maxLen h)).1
      = Ok r /\
    distance r = JInt 1.
Proof.
  intros Hne Hcap. exists (dl_value (p ++ c :: q) (p ++ c' :: q)). split.
  - apply engine_call. rewrite length_app. simpl. lia.
  - rewrite dl_value_distance. f_equal.
    exact (cell_substitution p q c c' Hne).
Qed.

Lemma dl_substitution_is_one_edit_witness :
  99%N ≠ 98%N /\
  length (js "a") + 1 + length (js "t") <= capacity None /\
  exists r,
    (distance_fn (js "a" ++ 99%N :: js "t") (js "a" ++ 98%N :: js "t")
                 (engine_after None [])).1 = Ok r /\
    distance r = JInt 1.
Proof.
  split; [done |]. split; [simpl; lia |].
  apply (dl_substitution_is_one_edit None [] (js "a") (js "t") 99%N 98%N);
    [done | simpl; lia].
Defined.

End DLMetric.

(** ** One character more or less *)

Section DLInsertion.
Import DL.

Lemma cell_offdiag_suffix (p1 p2 q : jsstring) (k : nat) :
  k <= length q ->
  cell (p1 ++ q) (p2 ++ q) (length p2 + k) (length p1 + k)
  = cell (p1 ++ q) (p2 ++ q) (length p2) (length p1).
Proof.
  induction k as [|k IH]; intros Hk.
  - by rewrite !Nat.add_0_r.
  - replace (length p2 + S k) with (S (length p2 + k)) by lia.
    replace (length p1 + S k) with (S (length p1 + k)) by lia.
    rewrite cell_SS. unfold charAt, char_seq.
    rewrite !lookup_app_plus.
    rewrite bool_decide_eq_true_2 by done. apply IH. lia.
Qed.

Lemma cell_below_diag_prefix (p t1 t2 : jsstring) (k : nat) :
  k <= length p ->
  (cell (p ++ t1) (p ++ t2) (S k) k <= 1)%Z.
Proof.
  induction k as [|k IH]; intros Hk; [by rewrite cell_col0 |].
  rewrite cell_SS.
  pose proof (IH ltac:(lia)) as Hprev.
  pose proof (cell_diag_prefix p t1 t2 (S k) Hk) as Hdiag.
  destruct (char_seq _ _); [done |].
  cbn zeta.
  destruct (_ && (_ <? _)%Z) eqn:Hsw; [| lia].
  apply andb_prop in Hsw as [_ Hlt]. apply Z.ltb_lt in Hlt. lia.
Qed.

Lemma cell_insertion (p q : jsstring) (c : N) :
  let s1 := p ++ q in
  let s2 := p ++ c :: q in
  cell s1 s2 (length s2) (length s1) = 1%Z.
Proof.
  intros s1 s2.
  pose proof (cell_lower s1 s2 (length s2) (length s1)) as Hlow.
  assert (Hs2 : s2 = (p ++ [c]) ++ q) by (unfold s2; by rewrite <- app_assoc).
  assert (Hl1 : length s1 = length p + length q) by apply length_app.
  assert (Hl2 : length s2 = length (p ++ [c]) + length q)
    by (rewrite Hs2; apply length_app).
  assert (Hup : (cell s1 s2 (length s2) (length s1) <= 1)%Z).
  { rewrite Hl1, Hl2. unfold s1. rewrite Hs2.
    rewrite cell_offdiag_suffix by lia.
    rewrite <- app_assoc. replace (length (p ++ [c])) with (S (length p))
      by (rewrite length_app; simpl; lia).
    apply cell_below_diag_prefix. lia. }
  rewrite Hl2, Hl1, length_app in Hlow. simpl in Hlow.
  rewrite Hl2, Hl1, length_app. simpl. rewrite Hl2, Hl1, length_app in Hup.
  simpl in Hup. lia.
Qed.

(** X9: inserting one character anywhere in a string, or deleting one,
    gives distance 1. *)
Theorem dl_insertion_deletion_is_one_edit (maxLen : option nat)
    (h h' : list (jsstring * jsstring)) (p q : jsstring) (c : N) :
  length p + 1 + length q <= capacity maxLen ->
  exists r r',
    (distance_fn (p ++ q) (p ++ c :: q) (engine_after maxLen h)).1 = Ok r /\
    (distance_fn (p ++ c :: q) (p ++ q) (engine_after maxLen h')).1 = Ok r' /\
    distance r = JInt 1 /\ distance r' = JInt 1.
Proof.
  intros Hcap.
  exists (dl_value (p ++ q) (p ++ c :: q)), (dl_value (p ++ c :: q) (p ++ q)).
  split; [apply engine_call; rewrite length_app; simpl; lia |].
  split; [apply engine_call; rewrite length_app; lia |].
  rewrite (dl_value_sym (p ++ c :: q)). rewrite dl_value_distance.
  split; f_equal; exact (cell_insertion p q c).
Qed.

Lemma dl_insertion_deletion_is_one_edit_witness :
  length (js "ac") + 1 + length (js "e") <= capacity None /\
  exists r r',
    (distance_fn (js "ac" ++ js "e") (js "ac" ++ 99%N :: js "e")
                 (engine_after None [])).1 = Ok r /\
    (distance_fn (js "ac" ++ 99%N :: js "e") (js "ac" ++ js "e")
                 (engine_after None [])).1 = Ok r' /\
    distance r = JInt 1 /\ distance r' = JInt 1.
Proof.
  split; [simpl; lia |].
  apply (dl_insertion_deletion_is_one_edit None [] [] (js "ac") (js "e") 99%N).
  simpl; lia.
Defined.

End DLInsertion.

(** * More about the set metrics *)

Section SetMore.
Import SetSim.
Context {K : Type} {eqK : EqDecision K} {countK : Countable K}.

Lemma js_div_proper (x x' y y' : Q) :
  (x == x')%Q -> (y == y')%Q -> same_num (js_div x y) (js_div x' y').
Proof.
  intros Hx Hy. unfold js_div.
  destruct (Qeq_bool y 0) eqn:E, (Qeq_bool y' 0) eqn:E'; simpl.
  - done.
  - apply Qeq_bool_eq in E. apply Qeq_bool_neq in E'.
    apply E'. by rewrite <- Hy.
  - apply Qeq_bool_eq in E'. apply Qeq_bool_neq in E.
    apply E. by rewrite Hy.
  - by rewrite Hx, Hy.
Qed.

Lemma js_one_minus_proper (x y : option Q) :
  same_num x y -> same_num (js_one_minus x) (js_one_minus y).
Proof.
  destruct x as [p|], y as [q|]; simpl; try done.
  intros Hpq. by rewrite Hpq.
Qed.

Lemma intersect_size_comm (sa sb : gset K) :
  intersect_size sa sb = intersect_size sb sa.
Proof. rewrite !intersect_size_spec. f_equal. set_solver. Qed.

Lemma size_split (sa sb : gset K) :
  size sa = size (sa ∖ sb) + size (sa ∩ sb).
Proof.
  rewrite <- (size_union (sa ∖ sb) (sa ∩ sb)) by set_solver. f_equal.
  apply set_eq. intros x. rewrite elem_of_union, elem_of_difference,
    elem_of_intersection. destruct (decide (x ∈ sb)); naive_solver.
Qed.

(** X10: [jaccard] is symmetric: swapping the two sets gives the same
    similarity and the same distance, also where the value is not a finite
    number. *)
Theorem jaccard_symmetric (sa sb : gset K) :
  same_num (similarity (jaccard sa sb)) (similarity (jaccard sb sa)) /\
  same_num (distance (jaccard sa sb)) (distance (jaccard sb sa)).
Proof.
  unfold jaccard. cbn [similarity distance].
  rewrite (intersect_size_comm sb sa).
  assert (Hj : same_num
    (js_div (num (intersect_size sa sb))
       (num (size sa) + num (size sb) - num (intersect_size sa sb)))
    (js_div (num (intersect_size sa sb))
       (num (size sb) + num (size sa) - num (intersect_size sa sb))))
    by (apply js_div_proper; [reflexivity | ring]).
  split; [done | by apply js_one_minus_proper].
Qed.

(** X11: for two empty sets both metrics divide 0 by 0, whatever the
    weights: neither the similarity nor the distance is a finite number. *)
Theorem set_metrics_both_empty (alpha beta : option Q) :
  jaccard (∅ : gset K) ∅ = {| distance := None; similarity := None |} /\
  tversky (∅ : gset K) ∅ alpha beta
    = {| distance := None; similarity := None |}.
Proof.
  unfold jaccard, tversky, intersect_size, count_common.
  rewrite size_empty, set_fold_empty. cbn [Nat.ltb Nat.leb].
  change (num 0) with 0%Q. split.
  - reflexivity.
  - assert (Hz : (0 + match alpha with Some x => x | None => 0.5 end * (0 - 0)
                  + match beta with Some x => x | None => 0.5 end * (0 - 0)
                  == 0)%Q) by ring.
    unfold js_div. apply Qeq_bool_iff in Hz. by rewrite Hz.
Qed.

(** X12: unless both sets are empty, the Jaccard similarity and distance
    are numbers between 0 and 1 that add up to 1. *)
Theorem jaccard_range (sa sb : gset K) :
  ~ (sa = ∅ /\ sb = ∅) ->
  exists q : Q,
    similarity (jaccard sa sb) = Some q /\
    distance (jaccard sa sb) = Some (1 - q)%Q /\
    (0 <= q)%Q /\ (q <= 1)%Q.
Proof.
  intros Hne. pose proof (union_size_pos sa sb Hne) as Hpos.
  unfold jaccard. cbn [similarity distance].
  rewrite js_div_defined by Lqa.lra.
  eexists. split; [reflexivity |]. split; [reflexivity |].
  destruct (intersect_size_le sa sb) as [Ha Hb].
  pose proof (num_le _ _ Ha). pose proof (num_le _ _ Hb).
  pose proof (num_nonneg (intersect_size sa sb)).
  pose proof (num_nonneg (size sa)). pose proof (num_nonneg (size sb)).
  split.
  - apply Qle_shift_div_l; [done | Lqa.lra].
  - apply Qle_shift_div_r; [done | Lqa.lra].
Qed.

Lemma num_le_inv (a b : nat) : (num a <= num b)%Q -> a <= b.
Proof. unfold num. rewrite <- Zle_Qle. lia. Qed.

(** X13: unless both sets are empty, the Jaccard similarity is 1 exactly
    when the two sets are equal, and 0 exactly when they share no
    element. *)
Theorem jaccard_extremes (sa sb : gset K) :
  ~ (sa = ∅ /\ sb = ∅) ->
  (same_num (similarity (jaccard sa sb)) (Some 1%Q) <-> sa = sb) /\
  (same_num (similarity (jaccard sa sb)) (Some 0%Q) <-> sa ∩ sb = ∅).
Proof.
  intros Hne. pose proof (union_size_pos sa sb Hne) as Hpos.
  unfold jaccard. cbn [similarity].
  rewrite js_div_defined by Lqa.lra. cbn [same_num].
  destruct (intersect_size_le sa sb) as [Ha Hb].
  pose proof (num_le _ _ Ha) as Ha'. pose proof (num_le _ _ Hb) as Hb'.
  revert Hpos Ha Hb Ha' Hb'. rewrite intersect_size_spec.
  intros Hpos Ha Hb Ha' Hb'.
  set (den := (num (size sa) + num (size sb) - num (size (sa ∩ sb)))%Q) in *.
  assert (Hden : ~ (den == 0)%Q) by Lqa.lra.
  split; split.
  - intros H1.
    assert (Heq : (num (size (sa ∩ sb)) == den)%Q).
    { rewrite <- (Qmult_1_l den), <- H1. field. done. }
    unfold den in Heq.
    assert (Hia : size (sa ∩ sb) = size sa).
    { apply Nat.le_antisymm; [done |]. apply num_le_inv. Lqa.lra. }
    assert (Hib : size (sa ∩ sb) = size sb).
    { apply Nat.le_antisymm; [done |]. apply num_le_inv. Lqa.lra. }
    assert (Hsa : sa ∩ sb = sa)
      by (apply set_subseteq_size_eq; [set_solver | lia]).
    assert (Hsb : sa ∩ sb = sb)
      by (apply set_subseteq_size_eq; [set_solver | lia]).
    congruence.
  - intros <-. unfold den.
    replace (sa ∩ sa) with sa by set_solver. field.
    unfold den in Hden. replace (sa ∩ sa) with sa in Hden by set_solver.
    intros Hz. apply Hden. rewrite <- Hz. ring.
  - intros H0.
    assert (Hz : (num (size (sa ∩ sb)) == 0)%Q).
    { rewrite <- (Qmult_0_l den), <- H0. field. done. }
    apply leibniz_equiv, size_empty_iff.
    unfold num in Hz. change 0%Q with (inject_Z 0) in Hz.
    apply (proj1 (inject_Z_injective _ _)) in Hz. lia.
  - intros Hemp. rewrite Hemp, size_empty. change (num 0) with 0%Q.
    unfold Qdiv. apply Qmult_0_l.
Qed.

(** X14: the similarity [tversky] computes from the sizes is the Tversky
    index of the two sets,
    |A∩B| / ( |A∩B| + alpha |A∖B| + beta |B∖A| ). *)
Theorem tversky_index (sa sb : gset K) (alpha beta : option Q) :
  let a := match alpha with None => 0.5%Q | Some x => x end in
  let b := match beta with None => 0.5%Q | Some x => x end in
  same_num (similarity (tversky sa sb alpha beta))
           (js_div (num (size (sa ∩ sb)))
                   (num (size (sa ∩ sb)) + a * num (size (sa ∖ sb))
                    + b * num (size (sb ∖ sa)))).
Proof.
  assert (Hc : sb ∩ sa = sa ∩ sb) by set_solver.
  intros a b. unfold tversky. cbn [similarity].
  rewrite intersect_size_spec. fold a b.
  apply js_div_proper; [reflexivity |].
  assert (Ha : (num (size sa) - num (size (sa ∩ sb))
                == num (size (sa ∖ sb)))%Q).
  { rewrite (size_split sa sb) at 1. unfold num.
    rewrite Nat2Z.inj_add, inject_Z_plus. ring. }
  assert (Hb : (num (size sb) - num (size (sa ∩ sb))
                == num (size (sb ∖ sa)))%Q).
  { rewrite (size_split sb sa) at 1.
    rewrite Hc. unfold num.
    rewrite Nat2Z.inj_add, inject_Z_plus. ring. }
  by rewrite Ha, Hb.
Qed.

(** X15: with weights that are not negative, a Tversky similarity that is
    a finite number lies between 0 and 1, and so does the distance. *)
Theorem tversky_range (sa sb : gset K) (alpha beta : Q) :
  (0 <= alpha)%Q -> (0 <= beta)%Q ->
  match similarity (tversky sa sb (Some alpha) (Some beta)),
        distance (tversky sa sb (Some alpha) (Some beta)) with
  | Some q, Some d => (0 <= q)%Q /\ (q <= 1)%Q /\ (d == 1 - q)%Q
  | None, None => True
  | _, _ => False
  end.
Proof.
  intros Ha Hb. unfold tversky. cbn [similarity distance].
  destruct (intersect_size_le sa sb) as [Hia Hib].
  pose proof (num_le _ _ Hia) as Hia'. pose proof (num_le _ _ Hib) as Hib'.
  pose proof (num_nonneg (intersect_size sa sb)) as Hi.
  set (i := num (intersect_size sa sb)) in *.
  assert (Hda : (0 <= alpha * (num (size sa) - i))%Q)
    by (apply Qmult_le_0_compat; Lqa.lra).
  assert (Hdb : (0 <= beta * (num (size sb) - i))%Q)
    by (apply Qmult_le_0_compat; Lqa.lra).
  revert Hda Hdb. generalize (alpha * (num (size sa) - i))%Q.
  generalize (beta * (num (size sb) - i))%Q. intros y x Hx Hy.
  unfold js_div. destruct (Qeq_bool (i + x + y) 0) eqn:E; [done |].
  apply Qeq_bool_neq in E. cbn.
  assert (Hpos : (0 < i + x + y)%Q) by Lqa.lra.
  split; [| split; [| reflexivity]].
  - apply Qle_shift_div_l; [done | Lqa.lra].
  - apply Qle_shift_div_r; [done | Lqa.lra].
Qed.

End SetMore.

Lemma jaccard_range_witness :
  ~ (SetSim.example_a = ∅ /\ SetSim.example_b = ∅) /\
  exists q : Q,
    SetSim.similarity (SetSim.jaccard SetSim.example_a SetSim.example_b)
      = Some q /\
    SetSim.distance (SetSim.jaccard SetSim.example_a SetSim.example_b)
      = Some (1 - q)%Q /\
    (0 <= q)%Q /\ (q <= 1)%Q.
Proof.
  assert (Hne : ~ (SetSim.example_a = ∅ /\ SetSim.example_b = ∅)).
  { intros [Habs _]. apply (f_equal size) in Habs. by vm_compute in Habs. }
  split; [exact Hne |].
  exact (jaccard_range SetSim.example_a SetSim.example_b Hne).
Defined.

Lemma jaccard_extremes_witness :
  ~ (SetSim.example_a = ∅ /\ SetSim.example_b = ∅) /\
  (SetSim.same_num
     (SetSim.similarity (SetSim.jaccard SetSim.example_a SetSim.example_b))
     (Some 1%Q)
   <-> SetSim.example_a = SetSim.example_b).
Proof.
  assert (Hne : ~ (SetSim.example_a = ∅ /\ SetSim.example_b = ∅)).
  { intros [Habs _]. apply (f_equal size) in Habs. by vm_compute in Habs. }
  split; [exact Hne |].
  exact (proj1 (jaccard_extremes SetSim.example_a SetSim.example_b Hne)).
Defined.

Lemma tversky_range_witness :
  (0 <= 2)%Q /\ (0 <= 0)%Q /\
  match SetSim.similarity
          (SetSim.tversky SetSim.example_a SetSim.example_b
                          (Some 2%Q) (Some 0%Q)),
        SetSim.distance
          (SetSim.tversky SetSim.example_a SetSim.example_b
                          (Some 2%Q) (Some 0%Q)) with
  | Some q, Some d => (0 <= q)%Q /\ (q <= 1)%Q /\ (d == 1 - q)%Q
  | None, None => True
  | _, _ => False
  end.
Proof.
  assert (H2 : (0 <= 2)%Q) by (vm_compute; congruence).
  assert (H0 : (0 <= 0)%Q) by (vm_compute; congruence).
  split; [exact H2 |]. split; [exact H0 |].
  exact (tversky_range SetSim.example_a SetSim.example_b 2 0 H2 H0).
Defined.

(** * More about Jaro-Winkler and the exact match *)

Section JWMore.
Import JW Exact.
Variable jaro : jsstring -> jsstring -> result.

(** X16: [exact] gives similarity 1 exactly to equal strings, does not
    depend on the order of its arguments, and on equal strings
    [jaroWinkler] returns the very same object, whatever the base metric
    and the parameters. *)
Theorem exact_and_identical_strings (s1 s2 : jsstring)
    (scalingFactor boostThreshold : option Q) :
  ((similarity (exact s1 s2) == 1)%Q <-> s1 = s2) /\
  exact s1 s2 = exact s2 s1 /\
  jaroWinkler jaro s1 s1 scalingFactor boostThreshold = exact s1 s1.
Proof.
  unfold exact, jaroWinkler. split; [| split].
  - destruct (decide (s1 = s2)) as [Heq|Hne].
    + by rewrite bool_decide_eq_true_2.
    + rewrite bool_decide_eq_false_2 by done. by split.
  - destruct (decide (s1 = s2)) as [Heq|Hne].
    + by rewrite !bool_decide_eq_true_2.
    + by rewrite !bool_decide_eq_false_2.
  - by rewrite !bool_decide_eq_true_2.
Qed.

(** X17: for different strings whose base similarity is below the
    normalised threshold, [jaroWinkler] returns the result of the base
    metric unchanged. *)
Theorem jaroWinkler_below_threshold (s1 s2 : jsstring)
    (scalingFactor boostThreshold : option Q) :
  s1 ≠ s2 ->
  (similarity (jaro s1 s2) < normalized 0.7 1 boostThreshold)%Q ->
  jaroWinkler jaro s1 s2 scalingFactor boostThreshold = jaro s1 s2.
Proof.
  intros Hne Hlt. unfold jaroWinkler.
  rewrite bool_decide_eq_false_2 by done.
  assert (Hjs : js_lt (similarity (jaro s1 s2))
                  (Qmin (Qabs match boostThreshold with
                              | Some x => x | None => 0.7 end) 1) = true).
  { apply js_lt_spec. by rewrite normalized_code. }
  by rewrite Hjs.
Qed.

Lemma capped_prefix_le_4 (s1 s2 : jsstring) : capped_prefix s1 s2 <= 4.
Proof. unfold capped_prefix. lia. Qed.

Lemma normalized_le_cap (dflt cap : Q) (p : option Q) :
  (normalized dflt cap p <= cap)%Q.
Proof.
  unfold normalized.
  generalize (match p with None => dflt | Some x => x end). intros x.
  destruct (Qlt_le_dec x 0); destruct (Qlt_le_dec cap _); Lqa.lra.
Qed.

(** X18: if the base similarity lies in [0,1], the similarity
    [jaroWinkler] returns is at most 1: the prefix counts at most 4 and the
    scaling factor is at most 0.25. *)
Theorem jaroWinkler_le_1 (s1 s2 : jsstring)
    (scalingFactor boostThreshold : option Q) :
  (0 <= similarity (jaro s1 s2))%Q ->
  (similarity (jaro s1 s2) <= 1)%Q ->
  (similarity (jaroWinkler jaro s1 s2 scalingFactor boostThreshold) <= 1)%Q.
Proof.
  intros H0 H1. unfold jaroWinkler.
  destruct (bool_decide (s1 = s2)); [apply Qle_refl |].
  destruct (js_lt _ _); [exact H1 |].
  cbn [similarity].
  rewrite prefix_loop_capped, normalized_code.
  pose proof (capped_prefix_le_4 s1 s2) as Hl.
  assert (Hl0 : (0 <= inject_Z (Z.of_nat (capped_prefix s1 s2)))%Q).
  { change 0%Q with (inject_Z 0). rewrite <- Zle_Qle. lia. }
  assert (Hl4 : (inject_Z (Z.of_nat (capped_prefix s1 s2)) <= 4)%Q).
  { change 4%Q with (inject_Z 4). rewrite <- Zle_Qle. lia. }
  assert (Hsf0 : (0 <= normalized 0.1 0.25 scalingFactor)%Q)
    by (apply normalized_nonneg; Lqa.lra).
  pose proof (normalized_le_cap 0.1 0.25 scalingFactor) as Hsf.
  revert Hl0 Hl4 Hsf0 Hsf.
  generalize (inject_Z (Z.of_nat (capped_prefix s1 s2))).
  generalize (normalized 0.1 0.25 scalingFactor).
  generalize (similarity (jaro s1 s2)) H0 H1. clear.
  intros b Hb0 Hb1 f l Hl0 Hl4 Hf0 Hf.
  assert (Hlf : (l * f <= 1)%Q).
  { apply Qle_trans with (4 * 0.25)%Q; [| Lqa.lra].
    apply Qle_trans with (l * 0.25)%Q.
    - rewrite !(Qmult_comm l). by apply Qmult_le_compat_r.
    - apply Qmult_le_compat_r; [done | Lqa.lra]. }
  assert (Hp : (l * f * (1 - b) <= 1 * (1 - b))%Q)
    by (apply Qmult_le_compat_r; [done | Lqa.lra]).
  Lqa.lra.
Qed.

(** X19: the sign of the two parameters does not matter: negated
    parameters give the same similarity and distance. *)
Theorem jaroWinkler_sign_insensitive (s1 s2 : jsstring) (sf bt : Q) :
  (similarity (jaroWinkler jaro s1 s2 (Some (- sf)%Q) (Some (- bt)%Q))
   == similarity (jaroWinkler jaro s1 s2 (Some sf) (Some bt)))%Q /\
  (distance (jaroWinkler jaro s1 s2 (Some (- sf)%Q) (Some (- bt)%Q))
   == distance (jaroWinkler jaro s1 s2 (Some sf) (Some bt)))%Q.
Proof.
  unfold jaroWinkler. cbv zeta.
  destruct (bool_decide (s1 = s2)); [split; reflexivity |].
  assert (Hbt : (Qmin (Qabs (- bt)) 1 == Qmin (Qabs bt) 1)%Q).
  { rewrite (normalized_code 0.7 1 (Some (- bt)%Q)).
    rewrite (normalized_code 0.7 1 (Some bt)). unfold normalized.
    destruct (Qlt_le_dec (- bt) 0), (Qlt_le_dec bt 0);
      repeat destruct (Qlt_le_dec 1 _); Lqa.lra. }
  assert (Hsf : (Qmin (Qabs (- sf)) 0.25 == Qmin (Qabs sf) 0.25)%Q).
  { rewrite (normalized_code 0.1 0.25 (Some (- sf)%Q)).
    rewrite (normalized_code 0.1 0.25 (Some sf)). unfold normalized.
    destruct (Qlt_le_dec (- sf) 0), (Qlt_le_dec sf 0);
      repeat destruct (Qlt_le_dec 0.25 _); Lqa.lra. }
  assert (Hjs : js_lt (similarity (jaro s1 s2)) (Qmin (Qabs (- bt)) 1)
                = js_lt (similarity (jaro s1 s2)) (Qmin (Qabs bt) 1)).
  { unfold js_lt. by rewrite Hbt. }
  rewrite Hjs. clear Hjs.
  destruct (js_lt (similarity (jaro s1 s2)) (Qmin (Qabs bt) 1));
    [split; reflexivity |].
  cbn [similarity distance]. rewrite Hsf. split; reflexivity.
Qed.

(** X20: different strings that disagree at their first position, or one
    of which is empty, get no boost: the similarity is the base
    similarity. *)
Theorem jaroWinkler_no_common_prefix (s1 s2 : jsstring)
    (scalingFactor boostThreshold : option Q) :
  s1 ≠ s2 -> common_prefix_length s1 s2 = 0 ->
  (similarity (jaroWinkler jaro s1 s2 scalingFactor boostThreshold)
   == similarity (jaro s1 s2))%Q.
Proof.
  intros Hne Hp. unfold jaroWinkler.
  rewrite bool_decide_eq_false_2 by done.
  destruct (js_lt _ _); [reflexivity |].
  cbn [similarity]. rewrite prefix_loop_capped.
  unfold capped_prefix. rewrite Hp. cbn [Nat.min]. simpl inject_Z. ring.
Qed.

Lemma common_prefix_length_sym (s1 s2 : jsstring) :
  common_prefix_length s1 s2 = common_prefix_length s2 s1.
Proof.
  revert s2. induction s1 as [|c1 s1 IH]; intros [|c2 s2]; simpl; try done.
  destruct (decide (c1 = c2)) as [->|Hne].
  - rewrite !bool_decide_eq_true_2 by done. by rewrite IH.
  - by rewrite !bool_decide_eq_false_2 by congruence.
Qed.

(** X21: where the base metric is symmetric, so is [jaroWinkler]. *)
Theorem jaroWinkler_symmetric (s1 s2 : jsstring)
    (scalingFactor boostThreshold : option Q) :
  jaro s1 s2 = jaro s2 s1 ->
  jaroWinkler jaro s1 s2 scalingFactor boostThreshold
  = jaroWinkler jaro s2 s1 scalingFactor boostThreshold.
Proof.
  intros Hj. unfold jaroWinkler.
  destruct (decide (s1 = s2)) as [->|Hne]; [done |].
  rewrite !bool_decide_eq_false_2 by congruence.
  rewrite Hj. destruct (js_lt _ _); [done |].
  rewrite (Nat.min_comm (length s1) (length s2)) at 1.
  rewrite (prefix_loop_capped s2 s1).
  rewrite (Nat.min_comm (length s2) (length s1)).
  rewrite (prefix_loop_capped s1 s2).
  unfold capped_prefix.
  by rewrite common_prefix_length_sym,
    (Nat.min_comm (length s1) (length s2)).
Qed.

End JWMore.

Lemma jaroWinkler_below_threshold_witness :
  js "abc" ≠ js "xyz" /\
  (JW.similarity (JW.sample_jaro (js "abc") (js "xyz"))
   < JW.normalized 0.7 1 None)%Q /\
  JW.jaroWinkler JW.sample_jaro (js "abc") (js "xyz") None None
  = JW.sample_jaro (js "abc") (js "xyz").
Proof.
  assert (Hne : js "abc" ≠ js "xyz") by (vm_compute; congruence).
  assert (Hlt : (JW.similarity (JW.sample_jaro (js "abc") (js "xyz"))
                 < JW.normalized 0.7 1 None)%Q) by (vm_compute; congruence).
  split; [exact Hne |]. split; [exact Hlt |].
  exact (jaroWinkler_below_threshold JW.sample_jaro (js "abc") (js "xyz")
           None None Hne Hlt).
Defined.

Lemma jaroWinkler_le_1_witness :
  (0 <= JW.similarity (JW.sample_jaro (js "martha") (js "marhta")))%Q /\
  (JW.similarity (JW.sample_jaro (js "martha") (js "marhta")) <= 1)%Q /\
  (JW.similarity
     (JW.jaroWinkler JW.sample_jaro (js "martha") (js "marhta")
                     (Some 7%Q) None) <= 1)%Q.
Proof.
  assert (H0 : (0 <= JW.similarity
                       (JW.sample_jaro (js "martha") (js "marhta")))%Q)
    by (vm_compute; congruence).
  assert (H1 : (JW.similarity
                  (JW.sample_jaro (js "martha") (js "marhta")) <= 1)%Q)
    by (vm_compute; congruence).
  split; [exact H0 |]. split; [exact H1 |].
  exact (jaroWinkler_le_1 JW.sample_jaro (js "martha") (js "marhta")
           (Some 7%Q) None H0 H1).
Defined.

Lemma jaroWinkler_no_common_prefix_witness :
  js "abc" ≠ js "xbc" /\
  JW.common_prefix_length (js "abc") (js "xbc") = 0 /\
  (JW.similarity
     (JW.jaroWinkler JW.sample_jaro (js "abc") (js "xbc") None (Some 0%Q))
   == JW.similarity (JW.sample_jaro (js "abc") (js "xbc")))%Q.
Proof.
  assert (Hne : js "abc" ≠ js "xbc") by (vm_compute; congruence).
  assert (Hp : JW.common_prefix_length (js "abc") (js "xbc") = 0)
    by reflexivity.
  split; [exact Hne |]. split; [exact Hp |].
  exact (jaroWinkler_no_common_prefix JW.sample_jaro (js "abc") (js "xbc")
           None (Some 0%Q) Hne Hp).
Defined.

Lemma jaroWinkler_symmetric_witness :
  JW.sample_jaro (js "abc") (js "abd") = JW.sample_jaro (js "abd") (js "abc") /\
  JW.jaroWinkler JW.sample_jaro (js "abc") (js "abd") None (Some 0%Q)
  = JW.jaroWinkler JW.sample_jaro (js "abd") (js "abc") None (Some 0%Q).
Proof.
  assert (Hj : JW.sample_jaro (js "abc") (js "abd")
               = JW.sample_jaro (js "abd") (js "abc")) by reflexivity.
  split; [exact Hj |].
  exact (jaroWinkler_symmetric JW.sample_jaro (js "abc") (js "abd")
           None (Some 0%Q) Hj).
Defined.

(** * More about the bag-of-words cosine *)

Section BowMore.
Import Bow.
Local Open Scope R_scope.




End BowMore.


(** * The bag-of-words cosine over the doubles *)

Section BowFFacts.
Import PrimFloat BowF.

(** ** Objects as tables *)

Lemma obj_get_tabulate (f : string -> float) (ks : list string) (k : string) :
  obj_get (tabulate f ks) k
  = if bool_decide (k ∈ ks) then Some (f k) else None.
Proof.
  induction ks as [|k0 ks IH]; cbn [tabulate map obj_get].
  - by rewrite bool_decide_eq_false_2 by apply not_elem_of_nil.
  - fold (tabulate f ks). rewrite IH.
    repeat case_bool_decide; subst; try done; exfalso; set_solver.
Qed.

Lemma tabulate_ext (f g : string -> float) (ks : list string) :
  (forall k, k ∈ ks -> f k = g k) -> tabulate f ks = tabulate g ks.
Proof.
  intros Hfg. unfold tabulate. apply map_ext_in. intros k Hk.
  rewrite Hfg; [done |]. by apply list_elem_of_In.
Qed.

Lemma obj_update_tabulate (ks : list string) (f g : string -> float)
    (k : string) (v : float) :
  NoDup ks -> k ∈ ks ->
  (forall k', k' ≠ k -> g k' = f k') -> g k = v ->
  obj_update (tabulate f ks) k v = tabulate g ks.
Proof.
  intros Hnd Hin Hother Hk.
  induction ks as [|k0 ks IH]; [by apply elem_of_nil in Hin |].
  apply NoDup_cons in Hnd as [Hk0 Hnd]. simpl.
  destruct (decide (k0 = k)) as [->|Hne].
  - rewrite bool_decide_eq_true_2 by done. rewrite Hk. f_equal.
    apply tabulate_ext. intros k' Hk'. symmetry. apply Hother.
    intros ->. done.
  - rewrite bool_decide_eq_false_2 by done. rewrite <- (Hother k0) by done.
    f_equal. apply IH; [done |].
    apply elem_of_cons in Hin as [->|Hin]; done.
Qed.

Lemma obj_insert_index_tabulate (ks : list string) (f : string -> float)
    (n : N) (k : string) :
  obj_insert_index (tabulate f ks) n k (f k)
  = tabulate f (keys_insert_index ks n k).
Proof.
  induction ks as [|k0 ks IH]; simpl; [done |].
  destruct (array_index k0) as [n0|]; [| done].
  destruct (n0 <? n)%N; [| done]. simpl. by rewrite IH.
Qed.

Lemma obj_set_tabulate (ks : list string) (f g : string -> float)
    (k : string) (v : float) :
  NoDup ks ->
  (forall k', k' ≠ k -> g k' = f k') -> g k = v ->
  obj_set (tabulate f ks) k v = tabulate g (keys_add ks k).
Proof.
  intros Hnd Hother Hk. unfold obj_set, keys_add.
  rewrite obj_get_tabulate.
  destruct (decide (k ∈ ks)) as [Hin|Hout].
  - rewrite !bool_decide_eq_true_2 by done.
    by apply obj_update_tabulate.
  - rewrite !bool_decide_eq_false_2 by done.
    assert (Hfg : tabulate f ks = tabulate g ks).
    { apply tabulate_ext. intros k' Hk'. symmetry. apply Hother.
      intros ->. done. }
    rewrite Hfg, <- Hk. destruct (array_index k) as [n|].
    + apply obj_insert_index_tabulate.
    + unfold tabulate. by rewrite map_app.
Qed.

(** ** The order of the keys *)

Lemma keys_insert_index_perm (ks : list string) (n : N) (k : string) :
  keys_insert_index ks n k ≡ₚ k :: ks.
Proof.
  induction ks as [|k0 ks IH]; simpl; [done |].
  destruct (array_index k0) as [n0|]; [| done].
  destruct (n0 <? n)%N; [| done].
  rewrite IH. apply Permutation_swap.
Qed.

Lemma keys_add_perm (ks : list string) (k : string) :
  k ∉ ks -> keys_add ks k ≡ₚ k :: ks.
Proof.
  intros Hout. unfold keys_add. rewrite bool_decide_eq_false_2 by done.
  destruct (array_index k) as [n|].
  - apply keys_insert_index_perm.
  - symmetry. apply Permutation_cons_append.
Qed.

Lemma elem_of_keys_add (ks : list string) (k k' : string) :
  k' ∈ keys_add ks k <-> k' = k \/ k' ∈ ks.
Proof.
  destruct (decide (k ∈ ks)) as [Hin|Hout].
  - unfold keys_add. rewrite bool_decide_eq_true_2 by done.
    split; [by right | intros [->|?]; done].
  - rewrite (keys_add_perm ks k Hout). apply elem_of_cons.
Qed.

Lemma NoDup_keys_add (ks : list string) (k : string) :
  NoDup ks -> NoDup (keys_add ks k).
Proof.
  intros Hnd. destruct (decide (k ∈ ks)) as [Hin|Hout].
  - unfold keys_add. by rewrite bool_decide_eq_true_2.
  - rewrite (keys_add_perm ks k Hout). by apply NoDup_cons.
Qed.

Lemma fold_keys_add_snoc (l ks : list string) (k : string) :
  fold_left keys_add (l ++ [k]) ks = keys_add (fold_left keys_add l ks) k.
Proof. by rewrite fold_left_app. Qed.

Lemma NoDup_fold_keys_add (l ks : list string) :
  NoDup ks -> NoDup (fold_left keys_add l ks).
Proof.
  revert ks. induction l as [|k l IH]; intros ks Hnd; simpl; [done |].
  by apply IH, NoDup_keys_add.
Qed.

Lemma elem_of_fold_keys_add (l ks : list string) (k : string) :
  k ∈ fold_left keys_add l ks <-> k ∈ l \/ k ∈ ks.
Proof.
  revert ks. induction l as [|k0 l IH]; intros ks; simpl.
  - split; [by right | intros [H|H]; [by apply elem_of_nil in H | done]].
  - rewrite IH, elem_of_keys_add, elem_of_cons. tauto.
Qed.

(** ** Reading weights *)

Lemma obj_get_app (p q : obj) (k : string) :
  obj_get (p ++ q) k
  = match obj_get p k with Some v => Some v | None => obj_get q k end.
Proof.
  induction p as [|[k0 v0] p IH]; simpl; [done |].
  by destruct (bool_decide (k0 = k)).
Qed.

Lemma obj_get_not_key (o : obj) (k : string) :
  k ∉ keys o -> obj_get o k = None.
Proof.
  induction o as [|[k0 v0] o IH]; [done |].
  intros Hout. unfold keys in *. rewrite fmap_cons in Hout.
  apply not_elem_of_cons in Hout as [Hne Hout]. cbn [obj_get].
  rewrite bool_decide_eq_false_2 by (simpl in Hne; congruence).
  by apply IH.
Qed.

Lemma weight_snoc_eq (p : obj) (k : string) (v : float) :
  k ∉ keys p -> weight (p ++ [(k, v)]) k = v.
Proof.
  intros Hout. unfold weight.
  rewrite obj_get_app, (obj_get_not_key p k Hout). simpl.
  by rewrite bool_decide_eq_true_2.
Qed.

Lemma weight_snoc_ne (p : obj) (k k' : string) (v : float) :
  k' ≠ k -> weight (p ++ [(k, v)]) k' = weight p k'.
Proof.
  intros Hne. unfold weight. rewrite obj_get_app.
  destruct (obj_get p k'); [done |]. simpl.
  by rewrite bool_decide_eq_false_2 by done.
Qed.

Lemma keys_snoc (p : obj) (k : string) (v : float) :
  keys (p ++ [(k, v)]) = keys p ++ [k].
Proof. unfold keys. by rewrite fmap_app. Qed.

Lemma js_or0_weight (a : obj) (k : string) :
  plain a -> js_or0 (Some (weight a k)) = weight a k.
Proof.
  intros Ha. unfold weight. destruct (obj_get a k) as [v|] eqn:Hv.
  - destruct (Ha k v Hv) as [Ht| ->]; [| reflexivity].
    simpl. by rewrite Ht.
  - reflexivity.
Qed.

(** ** The three loops *)

Lemma fill_from_a_tabulate (a : obj) :
  NoDup (keys a) ->
  fill_from_a a
  = (tabulate (weight a) (fold_left keys_add (keys a) []),
     tabulate (λ _, 0%float) (fold_left keys_add (keys a) [])).
Proof.
  induction a as [|[w v] p IH] using rev_ind; intros Hnd; [done |].
  rewrite keys_snoc in Hnd. apply NoDup_app in Hnd as (Hp & Hw & _).
  assert (Hout : w ∉ keys p).
  { intros Hin. apply (Hw w Hin). by apply list_elem_of_singleton. }
  unfold fill_from_a in *. rewrite fold_left_app. simpl.
  rewrite (IH Hp). simpl.
  rewrite keys_snoc, fold_keys_add_snoc.
  pose proof (NoDup_fold_keys_add (keys p) [] (NoDup_nil_2)) as HU.
  f_equal.
  - apply obj_set_tabulate; [done | |].
    + intros k' Hne. by apply weight_snoc_ne.
    + by apply weight_snoc_eq.
  - by apply obj_set_tabulate.
Qed.

Lemma fill_from_b_tabulate (a b : obj) (Ua : list string) :
  plain a -> NoDup Ua -> (forall k, k ∈ keys a -> k ∈ Ua) ->
  NoDup (keys b) ->
  fill_from_b b (tabulate (weight a) Ua, tabulate (λ _, 0%float) Ua)
  = (tabulate (weight a) (fold_left keys_add (keys b) Ua),
     tabulate (weight b) (fold_left keys_add (keys b) Ua)).
Proof.
  intros Ha HUa Hsub.
  induction b as [|[w v] q IH] using rev_ind; intros Hnd; [done |].
  rewrite keys_snoc in Hnd. apply NoDup_app in Hnd as (Hq & Hw & _).
  assert (Hout : w ∉ keys q).
  { intros Hin. apply (Hw w Hin). by apply list_elem_of_singleton. }
  unfold fill_from_b in *. rewrite fold_left_app. simpl.
  rewrite (IH Hq). simpl.
  rewrite keys_snoc, fold_keys_add_snoc.
  pose proof (NoDup_fold_keys_add (keys q) Ua HUa) as HU.
  f_equal.
  - apply obj_set_tabulate; [done | done |].
    rewrite obj_get_tabulate.
    destruct (decide (w ∈ fold_left keys_add (keys q) Ua)) as [Hin|Hnin].
    + rewrite bool_decide_eq_true_2 by done. symmetry.
      by apply js_or0_weight.
    + rewrite bool_decide_eq_false_2 by done. simpl.
      unfold weight. rewrite obj_get_not_key; [done |].
      intros Hk. apply Hnin, elem_of_fold_keys_add. right. by apply Hsub.
  - apply obj_set_tabulate; [done | |].
    + intros k' Hne. by apply weight_snoc_ne.
    + by apply weight_snoc_eq.
Qed.

Lemma sums_tabulate_from (fa fb : string -> float) (U V : list string)
    (init : float * float * float) :
  (forall k, k ∈ V -> k ∈ U) ->
  fold_left (λ acc e, accumulate acc e.2
                        (to_number (obj_get (tabulate fb U) e.1)))
            (tabulate fa V) init
  = fold_left (λ acc k, accumulate acc (fa k) (fb k)) V init.
Proof.
  revert init. induction V as [|k V IH]; intros init Hsub; simpl; [done |].
  rewrite obj_get_tabulate.
  rewrite bool_decide_eq_true_2 by (apply Hsub, elem_of_cons; by left).
  simpl. apply IH. intros k' Hk'. apply Hsub, elem_of_cons. by right.
Qed.

(** The sums the three loops accumulate are the sums of one pass over the
    union of the keys. *)
Lemma cosine_sums_union (a b : obj) :
  NoDup (keys a) -> NoDup (keys b) -> plain a ->
  sums (fill_from_b b (fill_from_a a)).1 (fill_from_b b (fill_from_a a)).2
  = union_sums a b.
Proof.
  intros Hna Hnb Ha.
  rewrite (fill_from_a_tabulate a Hna).
  rewrite (fill_from_b_tabulate a b); [| done | | | done].
  - cbn [fst snd]. unfold sums, union_sums, union_keys.
    rewrite fold_left_app. by apply sums_tabulate_from.
  - apply NoDup_fold_keys_add, NoDup_nil_2.
  - intros k Hk. apply elem_of_fold_keys_add. by left.
Qed.

(** ** The claim about the cosine *)







(** ** A bag of zeros *)

Lemma fold_accumulate_zero_a (wa wb : string -> float) (V : list string)
    (init : float * float * float) :
  (forall k, wa k = 0%float) -> init.1.1 = 0%float ->
  (fold_left (λ acc k, accumulate acc (wa k) (wb k)) V init).1.1 = 0%float.
Proof.
  intros Hwa. revert init. induction V as [|k V IH]; intros init H0; [done |].
  simpl. apply IH. unfold accumulate. cbn [fst]. by rewrite Hwa, H0.
Qed.

Lemma fold_accumulate_zero_b (wa wb : string -> float) (V : list string)
    (init : float * float * float) :
  (forall k, wb k = 0%float) -> init.1.2 = 0%float ->
  (fold_left (λ acc k, accumulate acc (wa k) (wb k)) V init).1.2 = 0%float.
Proof.
  intros Hwb. revert init. induction V as [|k V IH]; intros init H0; [done |].
  simpl. apply IH. unfold accumulate. cbn [fst snd]. by rewrite Hwb, H0.
Qed.

Lemma weight_all_zero (a : obj) (k : string) :
  (forall k v, obj_get a k = Some v -> v = 0%float) -> weight a k = 0%float.
Proof.
  intros Hz. unfold weight. destruct (obj_get a k) as [v|] eqn:Hv; [| done].
  by apply (Hz k).
Qed.

(** X29: a bag all of whose weights are 0, the empty bag among them, has
    similarity 0 and distance 1 to every bag, in either argument position:
    the guard [( sa2 && sb2 )] keeps the quotient [0/0] from being formed,
    whatever the other bag holds. *)
Theorem cosine_zero_vector (a b : obj) :
  NoDup (keys a) -> NoDup (keys b) ->
  (forall k v, obj_get a k = Some v -> v = 0%float) ->
  cosine a b = {| distance := 1; similarity := 0 |} /\
  (plain b -> cosine b a = {| distance := 1; similarity := 0 |}).
Proof.
  intros Hna Hnb Hz.
  assert (Ha : plain a) by (intros k v Hk; right; by apply (Hz k)).
  split.
  - unfold cosine. rewrite (cosine_sums_union a b Hna Hnb Ha).
    unfold union_sums.
    rewrite (fold_accumulate_zero_a (weight a) (weight b));
      [done | intros k; by apply weight_all_zero | done].
  - intros Hb. unfold cosine. rewrite (cosine_sums_union b a Hnb Hna Hb).
    unfold union_sums.
    rewrite (fold_accumulate_zero_b (weight b) (weight a));
      [| intros k; by apply weight_all_zero | done].
    by rewrite andb_false_r.
Qed.

Lemma cosine_zero_vector_witness :
  NoDup (keys zero_bag) /\ NoDup (keys huge) /\
  (forall k v, obj_get zero_bag k = Some v -> v = 0%float) /\
  cosine zero_bag huge = {| distance := 1; similarity := 0 |}.
Proof.
  assert (H1 : NoDup (keys zero_bag))
    by (apply (bool_decide_unpack _); by vm_compute).
  assert (H2 : NoDup (keys huge))
    by (apply (bool_decide_unpack _); by vm_compute).
  assert (H3 : forall k v, obj_get zero_bag k = Some v -> v = 0%float).
  { intros k v Hk. unfold zero_bag in Hk. cbn [obj_get] in Hk.
    repeat case_bool_decide; by simplify_eq. }
  split; [exact H1 |]. split; [exact H2 |]. split; [exact H3 |].
  exact (proj1 (cosine_zero_vector zero_bag huge H1 H2 H3)).
Defined.

End BowFFacts.
